(** * HEIC converter: a shallow embedding of [main.go]

    The program is a command-line batch converter.  Its own code consists of
    - the path arithmetic that derives an output file name,
    - the worker [convertHeic], a straight-line pipeline over an external
      codec with several early returns,
    - the discoverer [FindHeicFiles], a callback handed to [filepath.Walk],
    - [main], which launches one goroutine per job and synchronises them
      through a buffered channel [done] (the slot pool), an unbuffered
      channel [start] closed once (the start barrier) and a wait group.

    Go strings are modelled as [string] (sequences of bytes); the models of
    the library functions below are exact on ASCII input.  External calls
    (codec, encoders, file system) are modelled by their outcome, supplied
    by an oracle, and recorded in the trace of actions a goroutine
    performs.  Goroutines are modelled by an interleaving semantics over
    those traces. *)

From Stdlib Require Import ZArith Lia Ascii String List.
From stdpp Require Import base tactics option list strings relations.

Local Open Scope string_scope.
Local Open Scope list_scope.

(** ** Go library functions used by the program *)

Module GoLib.

Definition slash : ascii := "/"%char.
Definition dot : ascii := "."%char.

Definition is_sep (c : ascii) : bool := Ascii.eqb c slash.

Definition bytes (s : string) : list ascii := list_ascii_of_string s.
Definition of_bytes (l : list ascii) : string := string_of_list_ascii l.

(** [unicode.ToLower] on an ASCII byte. *)
Definition lower_byte (c : ascii) : ascii :=
  let n := nat_of_ascii c in
  if (65 <=? n)%nat && (n <=? 90)%nat then ascii_of_nat (n + 32) else c.

(** [strings.ToLower].  Exact on strings all of whose bytes are below 128
    (the ASCII fast path of the library); runes beyond ASCII, which the
    library maps by the Unicode tables, are outside this model: the
    properties that depend on it for arbitrary names carry the hypothesis
    that the names are ASCII ([ascii_name] below). *)
Fixpoint ToLower (s : string) : string :=
  match s with
  | EmptyString => EmptyString
  | String c r => String (lower_byte c) (ToLower r)
  end.

(** [strings.Replace(s, old, new, n)] for a one-byte [old] and [n >= 0]:
    the first [n] occurrences of [old] are replaced by [new]. *)
Fixpoint Replace (s : string) (old : ascii) (new : string) (n : nat) : string :=
  match n, s with
  | O, _ => s
  | _, EmptyString => EmptyString
  | S n', String c r =>
      if Ascii.eqb c old then new ++ Replace r old new n'
      else String c (Replace r old new n)
  end.

(** The loop of [filepath.Ext]: scan from the last byte towards the first,
    stop at a separator, return the suffix that starts at the first dot
    met.  [seen] holds the bytes already scanned, in order. *)
Fixpoint ext_scan (rev_path : list ascii) (seen : list ascii) : string :=
  match rev_path with
  | [] => ""
  | c :: r =>
      if is_sep c then ""
      else if Ascii.eqb c dot then of_bytes (c :: seen)
      else ext_scan r (c :: seen)
  end.

Definition Ext (path : string) : string := ext_scan (rev (bytes path)) [].

(** [filepath.Base] on Unix: strip trailing separators, keep what follows
    the last separator; the empty path gives ".", a path of separators
    only gives "/". *)
Fixpoint strip_seps (rev_path : list ascii) : list ascii :=
  match rev_path with
  | [] => []
  | c :: r => if is_sep c then strip_seps r else rev_path
  end.

Fixpoint last_elem (rev_path : list ascii) (seen : list ascii) : list ascii :=
  match rev_path with
  | [] => seen
  | c :: r => if is_sep c then seen else last_elem r (c :: seen)
  end.

Definition Base (path : string) : string :=
  match path with
  | EmptyString => "."
  | _ =>
      match last_elem (strip_seps (rev (bytes path))) [] with
      | [] => "/"
      | e => of_bytes e
      end
  end.

(** [filepath.Join(path, name)] as [filepath.Walk] uses it.  The library
    cleans the joined path; for a [path] in clean form other than "." and
    "/" and a plain entry [name] (not empty, no separator, neither "." nor
    "..") the cleaned join is the two with one separator between them,
    which is what is modelled.  Under ".", "/", "./images" or "images/"
    the library spells the paths differently ("a.heic", "/a.heic",
    "images/a.heic"): the properties that depend on the spelling of the
    paths carry the hypotheses [clean_dir] and [plain_name] below. *)
Definition Join (path name : string) : string := path ++ "/" ++ name.

End GoLib.

Import GoLib.

(** ** External calls and diagnostics *)

(** The values of Go's [error] that occur in the walk: an operating-system
    error, the two sentinels of [filepath], and the run-time panic of
    calling a method on a nil [FileInfo]. *)
Inductive error :=
| OsError (e : string)
| SkipDir
| SkipAll
| NilFileInfo.

Definition is_SkipDir (e : error) : bool :=
  match e with SkipDir => true | _ => false end.
Definition is_SkipAll (e : error) : bool :=
  match e with SkipAll => true | _ => false end.

(** The lines the program prints ([fmt.Printf], [fmt.Println]), by format
    string, with their string arguments. *)
Inductive msg :=
| CouldNotEncodeJPEG
| CouldNotSaveJPEG (filename : string)
| CouldNotEncodePNG
| CouldNotSavePNG (filename : string)
| ImageSavedAs (filename : string)
| CouldNotCreateContext
| CouldNotReadFile (file : string)
| CouldNotGetPrimaryImage
| ConvertingFile (file : string)
| CouldNotDecodeImage
| CouldNotGetImage
| UnsupportedFormat (format : string)
| FailedToDeleteOriginal (file : string)
| DeletedOriginalFile (file : string)
| NumberOfCPUs (n : nat)
| InputFileDoesNotExist (file : string)
| InputDirDoesNotExist (dir : string)
| ErrorFindingHeicFiles (e : error)
| EitherInputMustBeSpecified
| AllConversionsCompleted.

(** A call into the codec, the encoders, the file system or the console,
    with the result the program branches on ([ok] is [err == nil]). *)
Inductive call :=
| HeifNewContext (ok : bool)
| ReadFromFile (file : string) (ok : bool)
| GetPrimaryImageHandle (ok : bool)
| DecodeImage (ok : bool)
| GetImage (ok : bool)
| JpegEncode (quality : Z) (ok : bool)
| PngEncode (ok : bool)
| OsWriteFile (filename : string) (ok : bool)
| OsRemove (file : string) (ok : bool)
| OsStat (path : string) (not_exist : bool)
| FilepathWalk (root : string)
| FmtPrintf (m : msg).

(** What the external world answers for one source file. *)
Record outcome := {
  ctx_ok : bool;      (* heif.NewContext *)
  read_ok : bool;     (* c.ReadFromFile *)
  handle_ok : bool;   (* c.GetPrimaryImageHandle *)
  decode_ok : bool;   (* handle.DecodeImage *)
  image_ok : bool;    (* img.GetImage *)
  encode_ok : bool;   (* jpeg.Encode / png.Encode *)
  write_ok : bool;    (* os.WriteFile *)
  remove_ok : bool    (* os.Remove *)
}.

(** One step of a worker goroutine: a channel or wait-group operation, or
    an external call. *)
Inductive action :=
| SendDone            (* done <- struct{}{} : reserve a slot *)
| RecvStart           (* <-start : wait for the barrier *)
| RecvDone            (* <-done : release a slot *)
| WgDone              (* wg.Done() *)
| Do (c : call).

(** ** The worker *)

Definition saveJPEG (filename : string) (quality : Z) (o : outcome) : list action :=
  Do (JpegEncode quality (encode_ok o)) ::
  if negb (encode_ok o) then [Do (FmtPrintf CouldNotEncodeJPEG)]
  else
    Do (OsWriteFile filename (write_ok o)) ::
    if negb (write_ok o) then [Do (FmtPrintf (CouldNotSaveJPEG filename))]
    else [Do (FmtPrintf (ImageSavedAs filename))].

Definition savePNG (filename : string) (o : outcome) : list action :=
  Do (PngEncode (encode_ok o)) ::
  if negb (encode_ok o) then [Do (FmtPrintf CouldNotEncodePNG)]
  else
    Do (OsWriteFile filename (write_ok o)) ::
    if negb (write_ok o) then [Do (FmtPrintf (CouldNotSavePNG filename))]
    else [Do (FmtPrintf (ImageSavedAs filename))].

(** Lines 103-107: the output file name without its suffix. *)
Definition outFilename (file outputPath : string) : string :=
  let outFilename := Replace file dot "_" 1 in
  if negb (String.eqb outputPath "") then
    let filename := Base file in
    outputPath ++ Replace filename dot "_" 1
  else outFilename.

(** Lines 120-128: what follows the decode/encode block when control
    falls through it. *)
Definition delete_and_release (file : string) (deleteOriginal : bool) (o : outcome)
  : list action :=
  (if deleteOriginal then
     Do (OsRemove file (remove_ok o)) ::
     if negb (remove_ok o) then [Do (FmtPrintf (FailedToDeleteOriginal file))]
     else [Do (FmtPrintf (DeletedOriginalFile file))]
   else []) ++
  [RecvDone].

(** Lines 79-128: the body between [<-start] and the deferred
    [wg.Done()].  Each [return] of the source ends the list. *)
Definition convertHeic_body (file outputPath format : string) (quality : Z)
    (deleteOriginal : bool) (o : outcome) : list action :=
  Do (HeifNewContext (ctx_ok o)) ::
  if negb (ctx_ok o) then [Do (FmtPrintf CouldNotCreateContext)]
  else
  Do (ReadFromFile file (read_ok o)) ::
  if negb (read_ok o) then [Do (FmtPrintf (CouldNotReadFile file))]
  else
  Do (GetPrimaryImageHandle (handle_ok o)) ::
  if negb (handle_ok o) then [Do (FmtPrintf CouldNotGetPrimaryImage)]
  else
  Do (FmtPrintf (ConvertingFile file)) ::
  Do (DecodeImage (decode_ok o)) ::
  if negb (decode_ok o) then
    Do (FmtPrintf CouldNotDecodeImage) :: delete_and_release file deleteOriginal o
  else
  Do (GetImage (image_ok o)) ::
  if negb (image_ok o) then
    Do (FmtPrintf CouldNotGetImage) :: delete_and_release file deleteOriginal o
  else
    let outFilename := outFilename file outputPath in
    if String.eqb format "jpeg" then
      saveJPEG (outFilename ++ ".jpg") quality o
        ++ delete_and_release file deleteOriginal o
    else if String.eqb format "png" then
      savePNG (outFilename ++ ".png") o
        ++ delete_and_release file deleteOriginal o
    else [Do (FmtPrintf (UnsupportedFormat format))].

(** [convertHeic]: [defer wg.Done()], [<-start], the body. *)
Definition convertHeic (file outputPath format : string) (quality : Z)
    (deleteOriginal : bool) (o : outcome) : list action :=
  RecvStart :: convertHeic_body file outputPath format quality deleteOriginal o
    ++ [WgDone].

(** ** The file tree and [filepath.Walk] *)

(** What [os.Lstat] reports about an entry. *)
Record FileInfo := { Name : string; IsDir : bool }.

(** A file tree as the walk sees it.  [File] is any entry that is not a
    directory; the entries of a [Dir] are in the order [readDirNames]
    returns them (sorted by name). *)
#[local] Unset Elimination Schemes.
Inductive node :=
| File (name : string)
| Dir (name : string) (entries : list node)
| Unreadable (name : string) (e : string)  (* a directory whose listing fails *)
| Broken (name : string) (e : string).     (* an entry whose lstat fails *)
#[local] Set Elimination Schemes.

Definition node_name (n : node) : string :=
  match n with
  | File name | Dir name _ | Unreadable name _ | Broken name _ => name
  end.

Definition node_is_dir (n : node) : bool :=
  match n with
  | Dir _ _ | Unreadable _ _ => true
  | File _ | Broken _ _ => false
  end.

(** Induction on file trees, with the property known of all entries of a
    directory. *)
Section node_induction.

Variable Q : node -> Prop.
Hypothesis HFile : forall name, Q (File name).
Hypothesis HDir : forall name entries, Forall Q entries -> Q (Dir name entries).
Hypothesis HUnreadable : forall name e, Q (Unreadable name e).
Hypothesis HBroken : forall name e, Q (Broken name e).

Fixpoint node_ind (n : node) : Q n :=
  match n with
  | File name => HFile name
  | Dir name entries =>
      HDir name entries
        ((fix all (l : list node) : Forall Q l :=
            match l with
            | [] => @List.Forall_nil node Q
            | k :: r => @List.Forall_cons node Q k r (node_ind k) (all r)
            end) entries)
  | Unreadable name e => HUnreadable name e
  | Broken name e => HBroken name e
  end.

End node_induction.

Section Walk.

(** The callback closes over mutable variables of its caller: their value
    is the state [St] threaded through the walk. *)
Context {St : Type}.

Definition WalkFunc : Type :=
  string -> option FileInfo -> option error -> St -> St * option error.

Variable walkFn : WalkFunc.

(** [filepath.walk].  For a [Broken] entry the caller's branch
    [walkFn(filename, nil, err)] is taken; it is placed here so that the
    recursion has one entry point. *)
Fixpoint walk (path : string) (n : node) (s : St) : St * option error :=
  match n with
  | File name => walkFn path (Some {| Name := name; IsDir := false |}) None s
  | Broken name e => walkFn path None (Some (OsError e)) s
  | Unreadable name e =>
      walkFn path (Some {| Name := name; IsDir := true |}) (Some (OsError e)) s
  | Dir name entries =>
      let '(s1, err1) := walkFn path (Some {| Name := name; IsDir := true |}) None s in
      match err1 with
      | Some e1 => (s1, Some e1)
      | None =>
          (fix range (names : list node) (s : St) : St * option error :=
             match names with
             | [] => (s, None)
             | k :: names' =>
                 let filename := Join path (node_name k) in
                 let '(s', err) := walk filename k s in
                 match err with
                 | None => range names' s'
                 | Some e =>
                     match k with
                     | Broken _ _ =>
                         if negb (is_SkipDir e) then (s', Some e) else range names' s'
                     | _ =>
                         if negb (node_is_dir k) || negb (is_SkipDir e)
                         then (s', Some e) else range names' s'
                     end
                 end
             end) entries s1
      end
  end.

(** [filepath.Walk]. *)
Definition Walk (root : string) (tree : node) (s : St) : St * option error :=
  let '(s', err) := walk root tree s in
  match err with
  | Some e => if is_SkipDir e || is_SkipAll e then (s', None) else (s', Some e)
  | None => (s', None)
  end.

End Walk.

(** ** The discoverer *)

(** The function literal of lines 134-142; its state is [heicFiles]. *)
Definition heicWalkFn : @WalkFunc (list string) :=
  fun path info err heicFiles =>
    match err with
    | Some e => (heicFiles, Some e)
    | None =>
        match info with
        | None => (heicFiles, Some NilFileInfo)
        | Some info =>
            if String.eqb (Ext (ToLower (Name info))) ".heic"
            then (heicFiles ++ [path], None)
            else (heicFiles, None)
        end
    end.

Definition FindHeicFiles (directory : string) (tree : node) : list string * option error :=
  Walk heicWalkFn directory tree [].

(** ** [main] *)

Record flags := {
  inputFile : string;
  inputDir : string;
  outputPath : string;
  deleteOriginal : bool;
  format : string;
  quality : Z
}.

(** The defaults of the [flag] declarations. *)
Definition default_flags : flags :=
  {| inputFile := ""; inputDir := ""; outputPath := ""; deleteOriginal := false;
     format := "jpeg"; quality := 80 |}.

(** The environment of one invocation. *)
Record world := {
  NumCPU : nat;                     (* runtime.NumCPU() *)
  stat_not_exist : string -> bool;  (* os.IsNotExist of os.Stat's error *)
  tree : string -> node;            (* the file tree found at a path *)
  codec : string -> outcome         (* the outcome of the calls on a source file *)
}.

(** One step of the main goroutine.  [Go file reserved prog] starts a
    goroutine for the job [file] that will perform [prog]; [reserved]
    records whether main has sent on [done] for it beforehand. *)
Inductive minstr :=
| MDo (c : call)
| WgAdd                 (* wg.Add(1) *)
| MSendDone             (* done <- struct{}{} *)
| Go (file : string) (reserved : bool) (prog : list action)
| CloseStart            (* close(start) *)
| WgWait.               (* wg.Wait() *)

Definition stat_check (w : world) (path : string) (m : msg) : list minstr :=
  MDo (OsStat path (stat_not_exist w path)) ::
  if stat_not_exist w path then [MDo (FmtPrintf m)] else [].

(** Lines 146-193, after [flag.Parse()]: the steps main performs.  In the
    loop of line 178 every goroutine works on the [file] of its own
    iteration (the loop variable is per iteration, as from Go 1.22). *)
Definition main (fl : flags) (w : world) : list minstr :=
  let worker file :=
    convertHeic file (outputPath fl) (format fl) (quality fl) (deleteOriginal fl)
      (codec w file) in
  MDo (FmtPrintf (NumberOfCPUs (NumCPU w))) ::
  (if negb (String.eqb (inputFile fl) "") then
     stat_check w (inputFile fl) (InputFileDoesNotExist (inputFile fl)) ++
     [WgAdd; MSendDone; Go (inputFile fl) true (worker (inputFile fl))]
   else if negb (String.eqb (inputDir fl) "") then
     stat_check w (inputDir fl) (InputDirDoesNotExist (inputDir fl)) ++
     MDo (FilepathWalk (inputDir fl)) ::
     let '(files, err) := FindHeicFiles (inputDir fl) (tree w (inputDir fl)) in
     (match err with
      | Some e => [MDo (FmtPrintf (ErrorFindingHeicFiles e))]
      | None => []
      end) ++
     flat_map (fun file => [WgAdd; Go file false (SendDone :: worker file)]) files
   else [MDo (FmtPrintf EitherInputMustBeSpecified)]) ++
  [CloseStart; WgWait; MDo (FmtPrintf AllConversionsCompleted)].

(** The jobs a main program still has to launch. *)
Fixpoint launches (p : list minstr) : list string :=
  match p with
  | [] => []
  | Go file _ _ :: r => file :: launches r
  | _ :: r => launches r
  end.

Definition walks (p : list minstr) : list string :=
  flat_map (fun i => match i with MDo (FilepathWalk d) => [d] | _ => [] end) p.

(** ** Goroutines: an interleaving semantics *)

(** A worker goroutine: the job it was launched for, the actions it still
    has to perform, and three history flags: a slot was reserved for it,
    it has passed the start barrier, it has released a slot. *)
Record worker := {
  job : string;
  prog : list action;
  reserved : bool;
  past : bool;
  released : bool
}.

(** The shared state: the main goroutine's remaining program, the workers
    in launch order, [len(done)], whether [start] is closed, and the
    wait-group counter. *)
Record state := {
  mprog : list minstr;
  workers : list worker;
  slots : nat;
  started : bool;
  wg : nat
}.

Inductive tid := Main | Worker (i : nat).

Section Semantics.

(** The capacity of [done]. *)
Variable P : nat.

(** One step of the main goroutine; [None] when it is blocked, finished,
    or would panic (a second [close]). *)
Definition exec_main (s : state) : option state :=
  match mprog s with
  | [] => None
  | i :: rest =>
      match i with
      | MDo _ => Some {| mprog := rest; workers := workers s; slots := slots s;
                         started := started s; wg := wg s |}
      | WgAdd => Some {| mprog := rest; workers := workers s; slots := slots s;
                         started := started s; wg := S (wg s) |}
      | MSendDone =>
          if (slots s <? P)%nat
          then Some {| mprog := rest; workers := workers s; slots := S (slots s);
                       started := started s; wg := wg s |}
          else None
      | Go file r p =>
          Some {| mprog := rest;
                  workers := workers s ++
                    [{| job := file; prog := p; reserved := r; past := false;
                        released := false |}];
                  slots := slots s; started := started s; wg := wg s |}
      | CloseStart =>
          if started s then None
          else Some {| mprog := rest; workers := workers s; slots := slots s;
                       started := true; wg := wg s |}
      | WgWait =>
          if (wg s =? 0)%nat
          then Some {| mprog := rest; workers := workers s; slots := slots s;
                       started := started s; wg := wg s |}
          else None
      end
  end.

(** One step of worker [i]; [None] when there is no such worker, or it is
    blocked, finished, or would panic (a negative wait-group counter). *)
Definition exec_worker (i : nat) (s : state) : option state :=
  match workers s !! i with
  | None => None
  | Some wk =>
      match prog wk with
      | [] => None
      | a :: rest =>
          let upd (wk' : worker) (n : nat) (g : nat) :=
            Some {| mprog := mprog s; workers := <[i := wk']> (workers s);
                    slots := n; started := started s; wg := g |} in
          match a with
          | SendDone =>
              if (slots s <? P)%nat
              then upd {| job := job wk; prog := rest; reserved := true;
                          past := past wk; released := released wk |}
                       (S (slots s)) (wg s)
              else None
          | RecvStart =>
              if started s
              then upd {| job := job wk; prog := rest; reserved := reserved wk;
                          past := true; released := released wk |}
                       (slots s) (wg s)
              else None
          | RecvDone =>
              match slots s with
              | O => None
              | S n => upd {| job := job wk; prog := rest; reserved := reserved wk;
                              past := past wk; released := true |}
                           n (wg s)
              end
          | WgDone =>
              match wg s with
              | O => None
              | S g => upd {| job := job wk; prog := rest; reserved := reserved wk;
                              past := past wk; released := released wk |}
                           (slots s) g
              end
          | Do _ =>
              upd {| job := job wk; prog := rest; reserved := reserved wk;
                     past := past wk; released := released wk |}
                  (slots s) (wg s)
          end
      end
  end.

Definition exec (t : tid) (s : state) : option state :=
  match t with
  | Main => exec_main s
  | Worker i => exec_worker i s
  end.

(** The scheduler picks any goroutine that can move. *)
Definition step (s s' : state) : Prop := exists t, exec t s = Some s'.

(** A run under a given schedule. *)
Fixpoint run (sched : list tid) (s : state) : option state :=
  match sched with
  | [] => Some s
  | t :: sched' =>
      match exec t s with
      | Some s' => run sched' s'
      | None => None
      end
  end.

End Semantics.

Definition init (fl : flags) (w : world) : state :=
  {| mprog := main fl w; workers := []; slots := 0; started := false; wg := 0 |}.

(** The states an invocation can reach. *)
Definition reachable (fl : flags) (w : world) (s : state) : Prop :=
  rtc (step (NumCPU w)) (init fl w) s.

(** Main has returned. *)
Definition completed (s : state) : bool :=
  match mprog s with [] => true | _ => false end.

(** No goroutine can move. *)
Definition stuck (P : nat) (s : state) : Prop := forall t, exec P t s = None.

Fixpoint count {A : Type} (f : A -> bool) (l : list A) : nat :=
  match l with
  | [] => 0
  | x :: r => (if f x then 1 else 0) + count f r
  end.

Definition count_workers (f : worker -> bool) (s : state) : nat :=
  count f (workers s).

(** Workers past the start barrier that have not released a slot. *)
Definition in_body (wk : worker) : bool := past wk && negb (released wk).

(** Workers for which a slot is reserved and not released. *)
Definition holding (wk : worker) : bool := reserved wk && negb (released wk).

Definition releases (s : state) : nat := count_workers released s.

(** ** Vocabulary of the properties *)

Definition is_RecvDone (a : action) : bool :=
  match a with RecvDone => true | _ => false end.

Definition is_write (a : action) : bool :=
  match a with Do (OsWriteFile _ _) => true | _ => false end.

Definition is_remove (a : action) : bool :=
  match a with Do (OsRemove _ _) => true | _ => false end.

(** A reservation or a wait on the barrier. *)
Definition is_entry (a : action) : bool :=
  match a with SendDone | RecvStart => true | _ => false end.

(** Every step up to and including the retrieval of the raster succeeds. *)
Definition decodes (o : outcome) : bool :=
  ctx_ok o && read_ok o && handle_ok o && decode_ok o && image_ok o.

(** Control reaches line 120, past the decode/encode block. *)
Definition falls_through (format : string) (o : outcome) : bool :=
  ctx_ok o && read_ok o && handle_ok o &&
  (negb (decode_ok o) || negb (image_ok o) ||
   String.eqb format "jpeg" || String.eqb format "png").

(** The conversion produced its output file. *)
Definition converted (format : string) (o : outcome) : bool :=
  decodes o && (String.eqb format "jpeg" || String.eqb format "png") &&
  encode_ok o && write_ok o.

Definition all_ok : outcome :=
  {| ctx_ok := true; read_ok := true; handle_ok := true; decode_ok := true;
     image_ok := true; encode_ok := true; write_ok := true; remove_ok := true |}.

(** The calls [filepath.Walk] makes on a tree when no call stops it. *)
Record visit := { v_path : string; v_info : option FileInfo; v_err : option error }.

Fixpoint visits (path : string) (n : node) : list visit :=
  match n with
  | File name =>
      [{| v_path := path; v_info := Some {| Name := name; IsDir := false |};
          v_err := None |}]
  | Broken name e =>
      [{| v_path := path; v_info := None; v_err := Some (OsError e) |}]
  | Unreadable name e =>
      [{| v_path := path; v_info := Some {| Name := name; IsDir := true |};
          v_err := Some (OsError e) |}]
  | Dir name entries =>
      {| v_path := path; v_info := Some {| Name := name; IsDir := true |};
         v_err := None |} ::
      flat_map (fun k => visits (Join path (node_name k)) k) entries
  end.

(** The visits made before the first failing one, and that failure. *)
Fixpoint before_failure (vs : list visit) : list visit :=
  match vs with
  | [] => []
  | v :: r => match v_err v with None => v :: before_failure r | Some _ => [] end
  end.

Fixpoint first_failure (vs : list visit) : option error :=
  match vs with
  | [] => None
  | v :: r => match v_err v with None => first_failure r | Some e => Some e end
  end.

(** The extension of a name is ".heic" up to the case of ASCII letters. *)
Definition is_heic_name (name : string) : bool :=
  String.eqb (Ext (ToLower name)) ".heic".

Definition selected_of (v : visit) : list string :=
  match v_info v with
  | Some info => if is_heic_name (Name info) then [v_path v] else []
  | None => []
  end.

Definition selected (vs : list visit) : list string := flat_map selected_of vs.

(** The shape of the programs goroutines are launched with: one wait on
    the barrier, preceded by one reservation unless the launcher made it,
    and after them no further reservation or wait and at most one
    release. *)
Definition body_ok (t : list action) : Prop :=
  count is_entry t = 0 /\ count is_RecvDone t <= 1.

Definition launch_ok (res : bool) (p : list action) : Prop :=
  if res then exists t, p = RecvStart :: t /\ body_ok t
  else exists t, p = SendDone :: RecvStart :: t /\ body_ok t.

Definition worker_inv (wk : worker) : Prop :=
  if past wk then
    reserved wk = true /\ count is_entry (prog wk) = 0 /\
    count is_RecvDone (prog wk) <= (if released wk then 0 else 1)
  else released wk = false /\ launch_ok (reserved wk) (prog wk).

(** Main sends on [done] only right before a [go] of a worker that does
    not reserve; [pend] says that such a send has just been made. *)
Fixpoint main_ok (pend : bool) (p : list minstr) : Prop :=
  match p with
  | [] => pend = false
  | MSendDone :: r => pend = false /\ main_ok true r
  | Go _ res prog :: r => res = pend /\ launch_ok res prog /\ main_ok false r
  | _ :: r => pend = false /\ main_ok false r
  end.

(** The slot invariant: [len(done)] counts the workers holding a slot,
    plus the slot main holds for the worker it is about to launch. *)
Definition slot_inv (P : nat) (s : state) : Prop :=
  exists pend,
    main_ok pend (mprog s) /\
    Forall worker_inv (workers s) /\
    slots s = count holding (workers s) + (if pend then 1 else 0) /\
    slots s <= P.

(** The jobs of the [go] statements after the [close(start)] of a main
    program. *)
Fixpoint launches_after_close (p : list minstr) : list string :=
  match p with
  | [] => []
  | CloseStart :: r => launches r
  | _ :: r => launches_after_close r
  end.


(** ** Inputs, schedules and invariants used in the proofs *)

Definition decode_fails : outcome :=
  {| ctx_ok := true; read_ok := true; handle_ok := true; decode_ok := false;
     image_ok := true; encode_ok := true; write_ok := true; remove_ok := true |}.

Definition read_fails : outcome :=
  {| ctx_ok := true; read_ok := false; handle_ok := true; decode_ok := true;
     image_ok := true; encode_ok := true; write_ok := true; remove_ok := true |}.

Definition album_tree : node :=
  Dir "d" [File "a.HEIC"; Dir "album.heic" [File "x.txt"]; File "notes.txt"].

(** Case analysis on the paths through [convertHeic]: every answer of the
    oracle, the two format tests and the delete flag. *)
Ltac all_paths o fmt del :=
  unfold convertHeic, convertHeic_body, falls_through, decodes,
    delete_and_release, saveJPEG, savePNG;
  destruct o as [[] [] [] [] [] [] [] []]; simpl;
  destruct (String.eqb fmt "jpeg"), (String.eqb fmt "png"), del.

(** Case analysis on a step of main, and on a step of a worker. *)
Ltac split_guard H :=
  repeat match type of H with
    | (if ?b then _ else _) = Some _ =>
        let Eg := fresh "Eg" in destruct b eqn:Eg
    | match ?n with O => _ | S _ => _ end = Some _ =>
        let En := fresh "En" in destruct n eqn:En
    end;
  try discriminate H.

Ltac exec_main_cases H :=
  unfold exec_main in H;
  let i := fresh "i" in
  let rest := fresh "rest" in
  let Em := fresh "Em" in
  destruct (mprog _) as [| i rest] eqn:Em; [discriminate H |];
  destruct i; split_guard H; simplify_eq; simpl in *.

Ltac exec_worker_cases H :=
  unfold exec_worker in H;
  let wk := fresh "wk" in
  let Ew := fresh "Ew" in
  let a := fresh "a" in
  let rest := fresh "rest" in
  let Ep := fresh "Ep" in
  destruct (_ !! _) as [wk |] eqn:Ew; [| discriminate H];
  destruct (prog wk) as [| a rest] eqn:Ep; [discriminate H |];
  destruct a; split_guard H; simplify_eq; simpl in *.

Ltac sproj :=
  cbn [mprog workers slots started wg job prog reserved past released] in *.

Definition barrier_inv (s : state) : Prop :=
  launches_after_close (mprog s) = [] /\
  (started s = true -> launches (mprog s) = []).


Definition dir_flags : flags :=
  {| inputFile := ""; inputDir := "d"; outputPath := ""; deleteOriginal := false;
     format := "jpeg"; quality := 80 |}.

Definition file_flags : flags :=
  {| inputFile := "a.heic"; inputDir := ""; outputPath := ""; deleteOriginal := false;
     format := "jpeg"; quality := 80 |}.

Definition both_flags : flags :=
  {| inputFile := "a.heic"; inputDir := "d"; outputPath := ""; deleteOriginal := false;
     format := "jpeg"; quality := 80 |}.

(** One CPU, a directory "d" with the given entries, every file exists and
    answers [o] to the codec. *)
Definition world_of (entries : list node) (o : outcome) : world :=
  {| NumCPU := 1; stat_not_exist := fun _ => false;
     tree := fun _ => Dir "d" entries; codec := fun _ => o |}.

Definition one_file_world : world := world_of [File "a.heic"] all_ok.
Definition two_files_world : world := world_of [File "a.heic"; File "b.heic"] all_ok.
Definition partial_world : world :=
  world_of [File "a.heic"; Broken "b" "permission denied"; File "c.heic"] all_ok.
Definition unreadable_world : world :=
  world_of [File "a.heic"; File "b.heic"] read_fails.

(** Main launches both workers and closes the barrier; the first worker
    reserves, passes the barrier and creates its context. *)
Definition sched_first_in_body : list tid :=
  replicate 8 Main ++ replicate 3 (Worker 0).

Definition state_first_in_body : state :=
  Eval vm_compute in
    match run 1 sched_first_in_body (init dir_flags two_files_world) with
    | Some s => s
    | None => init dir_flags two_files_world
    end.

Definition sched_single_started : list tid := replicate 6 Main ++ [Worker 0].

Definition state_single_started : state :=
  Eval vm_compute in
    match run 1 sched_single_started (init file_flags one_file_world) with
    | Some s => s
    | None => init file_flags one_file_world
    end.

(** The walk of "d" fails at "b" after "a.heic" was collected; main goes
    on, and the worker for "d/a.heic" runs to its end. *)
Definition sched_partial : list tid :=
  replicate 7 Main ++ replicate 13 (Worker 0) ++ replicate 2 Main.

(** Single-file mode, the codec cannot read the file: main reserves,
    launches and closes the barrier; the worker passes the barrier, fails
    to read, prints and returns through the deferred [wg.Done()]; main's
    wait ends. *)
Definition sched_read_fail : list tid :=
  replicate 6 Main ++ replicate 5 (Worker 0) ++ replicate 2 Main.

(** Directory mode with two files on one CPU, neither of them readable by
    the codec: main launches both workers and closes the barrier, the
    first worker reserves the only slot and returns early. *)
Definition sched_starved : list tid :=
  replicate 8 Main ++ replicate 6 (Worker 0).

Definition state_starved : state :=
  Eval vm_compute in
    match run 1 sched_starved (init dir_flags unreadable_world) with
    | Some s => s
    | None => init dir_flags unreadable_world
    end.

(** The wait-group invariant and the state at completion. *)
Definition is_WgAdd (i : minstr) : bool :=
  match i with WgAdd => true | _ => false end.
Definition is_Go (i : minstr) : bool :=
  match i with Go _ _ _ => true | _ => false end.
Definition is_WgWait (i : minstr) : bool :=
  match i with WgWait => true | _ => false end.
Definition is_WgDone (a : action) : bool :=
  match a with WgDone => true | _ => false end.

(** A worker that has not returned yet. *)
Definition unfinished (wk : worker) : bool :=
  match prog wk with [] => false | _ => true end.

(** A goroutine's program ends with its only [wg.Done()]. *)
Definition ends_with_WgDone (p : list action) : Prop :=
  exists t, p = t ++ [WgDone] /\ count is_WgDone t = 0.

(** Nothing is added to the wait group, and nothing launched, after
    [wg.Wait()]. *)
Fixpoint wait_ok (p : list minstr) : Prop :=
  match p with
  | [] => True
  | WgWait :: r =>
      count is_WgAdd r = 0 /\ count is_Go r = 0 /\ count is_WgWait r = 0
  | _ :: r => wait_ok r
  end.

Definition go_ends_with_WgDone (i : minstr) : Prop :=
  match i with Go _ _ p => ends_with_WgDone p | _ => True end.

Definition wg_inv (s : state) : Prop :=
  wg s + count is_WgAdd (mprog s) = count unfinished (workers s) + count is_Go (mprog s) /\
  Forall (fun wk => prog wk = [] \/ ends_with_WgDone (prog wk)) (workers s) /\
  Forall go_ends_with_WgDone (mprog s) /\
  wait_ok (mprog s) /\
  (count is_WgWait (mprog s) = 0 ->
     count is_WgAdd (mprog s) = 0 /\ count is_Go (mprog s) = 0 /\
     count unfinished (workers s) = 0).

(** What a worker gives back: one slot if its job falls through, none
    otherwise. *)
Definition gives_back (fl : flags) (w : world) (file : string) : bool :=
  falls_through (format fl) (codec w file).

Definition b2n (b : bool) : nat := if b then 1 else 0.

Definition go_release (fl : flags) (w : world) (i : minstr) : Prop :=
  match i with
  | Go file _ p => count is_RecvDone p = b2n (gives_back fl w file)
  | _ => True
  end.

Definition release_inv (fl : flags) (w : world) (s : state) : Prop :=
  Forall (go_release fl w) (mprog s) /\
  Forall (fun wk => count is_RecvDone (prog wk) + b2n (released wk)
                    = b2n (gives_back fl w (job wk))) (workers s).

(** ** Vocabulary of the further properties *)

(** The suffix the worker appends for a supported format (lines 111, 113). *)
Definition suffix_of (format : string) : string :=
  if String.eqb format "jpeg" then ".jpg" else ".png".

(** A write to the file [name]. *)
Definition writes_to (name : string) (a : action) : bool :=
  match a with Do (OsWriteFile n _) => String.eqb n name | _ => false end.

Definition is_Do (a : action) : bool :=
  match a with Do _ => true | _ => false end.

(** The lines that report a failed conversion (not those of the delete
    step). *)
Definition is_failure_notice (a : action) : bool :=
  match a with
  | Do (FmtPrintf m) =>
      match m with
      | CouldNotEncodeJPEG | CouldNotSaveJPEG _ | CouldNotEncodePNG
      | CouldNotSavePNG _ | CouldNotCreateContext | CouldNotReadFile _
      | CouldNotGetPrimaryImage | CouldNotDecodeImage | CouldNotGetImage
      | UnsupportedFormat _ => true
      | _ => false
      end
  | _ => false
  end.

(** The same case analysis, following the branches of the source one test
    at a time. *)
Ltac path_step :=
  match goal with
  | |- context [if negb ?b then _ else _] => destruct b; simpl
  | |- context [if ?b then _ else _] => destruct b; simpl
  end.

Ltac by_paths o :=
  unfold convertHeic, convertHeic_body, falls_through, converted, decodes,
    delete_and_release, saveJPEG, savePNG, suffix_of;
  destruct o as [? ? ? ? ? ? ? ?]; simpl;
  repeat path_step.

(** The program of the worker of a job, with the flags of the invocation. *)
Definition conv (fl : flags) (w : world) (file : string) : list action :=
  convertHeic file (outputPath fl) (format fl) (quality fl) (deleteOriginal fl)
    (codec w file).

Definition go_conv (fl : flags) (w : world) (i : minstr) : Prop :=
  match i with
  | Go file r p => p = if r then conv fl w file else SendDone :: conv fl w file
  | _ => True
  end.

(** A worker that has done nothing yet, except possibly reserve its slot. *)
Definition fresh (fl : flags) (w : world) (wk : worker) : Prop :=
  prog wk = conv fl w (job wk) \/ prog wk = SendDone :: conv fl w (job wk).

Definition fresh_inv (fl : flags) (w : world) (s : state) : Prop :=
  Forall (go_conv fl w) (mprog s) /\
  Forall (fun wk => if past wk then started s = true else fresh fl w wk)
         (workers s).

Definition is_CloseStart (i : minstr) : bool :=
  match i with CloseStart => true | _ => false end.
Definition is_MSendDone (i : minstr) : bool :=
  match i with MSendDone => true | _ => false end.

(** In every suffix of a main program the [wg.Add(1)] are at most as many
    as the [go]: each [go] is preceded by its [wg.Add(1)]. *)
Fixpoint adds_covered (p : list minstr) : Prop :=
  match p with
  | [] => True
  | i :: r => count is_WgAdd p <= count is_Go p /\ adds_covered r
  end.

(** [close(start)] comes before [wg.Wait()]. *)
Fixpoint close_first (p : list minstr) : Prop :=
  match p with
  | [] => True
  | WgWait :: r => count is_CloseStart r = 0
  | _ :: r => close_first r
  end.

(** Main does not send on [done] once it has launched a goroutine. *)
Fixpoint no_send_after_go (p : list minstr) : Prop :=
  match p with
  | [] => True
  | Go _ _ _ :: r => count is_MSendDone r = 0
  | _ :: r => no_send_after_go r
  end.

Definition order_inv (s : state) : Prop :=
  adds_covered (mprog s) /\
  count is_CloseStart (mprog s) = (if started s then 0 else 1) /\
  close_first (mprog s) /\
  no_send_after_go (mprog s) /\
  (0 < count is_MSendDone (mprog s) -> workers s = []).

Definition state_read_fail : state :=
  Eval vm_compute in
    match run 1 sched_read_fail (init file_flags unreadable_world) with
    | Some s => s
    | None => init file_flags unreadable_world
    end.

(** A complete run of the two-file batch in which every conversion
    succeeds: main launches both workers and closes the barrier, the
    workers run one after the other, main's wait ends. *)
Definition sched_two_converted : list tid :=
  replicate 8 Main ++ replicate 13 (Worker 0) ++ replicate 13 (Worker 1)
    ++ replicate 2 Main.

Definition state_two_converted : state :=
  Eval vm_compute in
    match run 1 sched_two_converted (init dir_flags two_files_world) with
    | Some s => s
    | None => init dir_flags two_files_world
    end.

(** ** Vocabulary of the run-level properties of the workers *)











(** Directory mode with two decodable files on one CPU and a format that
    is not supported: main launches both workers and closes the barrier,
    the first worker reserves the only slot, reports the format and
    returns. *)
Definition gif_dir_flags : flags :=
  {| inputFile := ""; inputDir := "d"; outputPath := ""; deleteOriginal := false;
     format := "gif"; quality := 80 |}.

Definition sched_gif_starved : list tid :=
  replicate 8 Main ++ replicate 10 (Worker 0).

Definition state_gif_starved : state :=
  Eval vm_compute in
    match run 1 sched_gif_starved (init gif_dir_flags two_files_world) with
    | Some s => s
    | None => init gif_dir_flags two_files_world
    end.

(** The inputs on which the models of [strings.ToLower] and
    [filepath.Join] are exact. *)
Definition ascii_name (n : string) : bool :=
  forallb (fun c => (nat_of_ascii c <? 128)%nat) (bytes n).

Definition plain_name (n : string) : bool :=
  negb (String.eqb n "") && negb (String.eqb n ".") && negb (String.eqb n "..")
  && forallb (fun c => negb (is_sep c)) (bytes n).

(** A property of the names of all entries below the root of a tree. *)
Fixpoint entries_all (f : string -> bool) (n : node) : bool :=
  match n with
  | Dir _ entries => forallb (fun k => f (node_name k) && entries_all f k) entries
  | _ => true
  end.

(** The elements of a path, split at the separators. *)
Fixpoint split_sep (path : list ascii) (cur : list ascii) : list (list ascii) :=
  match path with
  | [] => [rev cur]
  | c :: r => if is_sep c then rev cur :: split_sep r [] else split_sep r (c :: cur)
  end.

(** A directory path in clean form that is neither "." nor "/": plain
    elements with one separator between them, after at most one leading
    separator. *)
Definition clean_dir (d : string) : bool :=
  match split_sep (bytes d) [] with
  | [] => false
  | first :: rest =>
      match first with
      | [] => match rest with [] => false | _ => forallb (fun e => plain_name (of_bytes e)) rest end
      | _ => forallb (fun e => plain_name (of_bytes e)) (first :: rest)
      end
  end.

(** * Properties *)

(** ** The library models on examples *)

Example Ext_ex1 : Ext "a.heic" = ".heic". Proof. reflexivity. Qed.
Example Ext_ex2 : Ext "dir.d/noext" = "". Proof. reflexivity. Qed.
Example Ext_ex3 : Ext "a.tar.gz" = ".gz". Proof. reflexivity. Qed.
Example Base_ex1 : Base "images/a.heic" = "a.heic". Proof. reflexivity. Qed.
Example Base_ex2 : Base "images/sub/" = "sub". Proof. reflexivity. Qed.
Example Base_ex3 : Base "///" = "/". Proof. reflexivity. Qed.
Example ToLower_ex : ToLower "IMG_01.HeIC" = "img_01.heic". Proof. reflexivity. Qed.
Example Replace_ex : Replace "a.b.c" dot "_" 1 = "a_b.c". Proof. reflexivity. Qed.

(** ** The worker, one path at a time *)

Lemma count_app {A} (f : A -> bool) (l1 l2 : list A) :
  count f (l1 ++ l2) = count f l1 + count f l2.
Proof. induction l1 as [|x l1 IH]; simpl; [done | rewrite IH; lia]. Qed.

Lemma count_zero_not_In {A} (f : A -> bool) (l : list A) (x : A) :
  count f l = 0 -> f x = true -> ~ In x l.
Proof.
  induction l as [|y l IH]; simpl; [tauto |].
  intros Hc Hx [-> | Hin].
  - rewrite Hx in Hc. lia.
  - apply IH; [lia | done | done].
Qed.

(** The slot is given back on the fall-through paths and on no other. *)
Lemma convertHeic_release_count file out fmt q del o :
  count is_RecvDone (convertHeic file out fmt q del o)
  = if falls_through fmt o then 1 else 0.
Proof.
  all_paths o fmt del; reflexivity.
Qed.

(** The source is removed exactly on the fall-through paths of a job with
    the delete flag, whether or not an output file was produced. *)
Lemma convertHeic_remove_count file out fmt q del o :
  count is_remove (convertHeic file out fmt q del o)
  = if del && falls_through fmt o then 1 else 0.
Proof.
  all_paths o fmt del; reflexivity.
Qed.

(** Without the delete flag the source is never removed. *)
Lemma convertHeic_keeps_source file out fmt q o ok :
  ~ In (Do (OsRemove file ok)) (convertHeic file out fmt q false o).
Proof.
  apply (count_zero_not_In is_remove); [| done].
  by rewrite convertHeic_remove_count.
Qed.

(** A file is written at most once, and only after a successful encode. *)
Lemma convertHeic_write_count file out fmt q del o :
  count is_write (convertHeic file out fmt q del o)
  = if decodes o && (String.eqb fmt "jpeg" || String.eqb fmt "png") && encode_ok o
    then 1 else 0.
Proof.
  all_paths o fmt del; reflexivity.
Qed.

Lemma In_count_pos {A} (f : A -> bool) (l : list A) :
  0 < count f l -> exists x, In x l /\ f x = true.
Proof.
  induction l as [|y l IH]; simpl; [lia |].
  destruct (f y) eqn:Hy; [eauto |].
  intros H. destruct IH as (x & Hin & Hx); [lia | eauto].
Qed.

(** Every [os.Remove] of the worker is on its own source file, with the
    oracle's answer. *)
Lemma convertHeic_remove_shape file out fmt q del o a :
  In a (convertHeic file out fmt q del o) -> is_remove a = true ->
  a = Do (OsRemove file (remove_ok o)).
Proof.
  unfold convertHeic, convertHeic_body, delete_and_release, saveJPEG, savePNG.
  destruct o as [c r h d i e wr rm]; simpl.
  destruct c, r, h, d, i, (String.eqb fmt "jpeg"), (String.eqb fmt "png"),
    e, wr, del, rm; simpl; intros Hin Ha;
    repeat (destruct Hin as [<- | Hin]; [done || discriminate Ha |]);
    destruct Hin.
Qed.

(** The source is removed if and only if the job has the delete flag and
    control falls through the decode/encode block: a failed decode, a
    failed raster retrieval, a failed encode and a failed write all fall
    through. *)
Lemma convertHeic_removes_iff file out fmt q del o :
  In (Do (OsRemove file (remove_ok o))) (convertHeic file out fmt q del o)
  <-> del = true /\ falls_through fmt o = true.
Proof.
  pose proof (convertHeic_remove_count file out fmt q del o) as Hc.
  split.
  - intros Hin.
    destruct (del && falls_through fmt o) eqn:E.
    + by apply andb_true_iff in E.
    + exfalso. by apply (count_zero_not_In is_remove _ _ Hc) in Hin.
  - intros [-> Hf]. rewrite Hf in Hc. change (if true && true then 1 else 0) with 1 in Hc.
    destruct (In_count_pos is_remove (convertHeic file out fmt q true o))
      as (a & Hin & Ha); [lia |].
    by rewrite <- (convertHeic_remove_shape _ _ _ _ _ _ _ Hin Ha).
Qed.

(** C2.  The claim: with the delete flag, the source file is deleted only
    when the conversion succeeded; a failed decode halts the job and the
    source is kept.  The code at a job whose [DecodeImage] fails: the
    branch of line 98 only prints, control falls through to line 120, and
    [os.Remove] is called on the source although nothing was converted and
    no output file was written. *)
Theorem C2_source_removed_after_failed_decode :
  let trace := convertHeic "a.heic" "" "jpeg" 80 true decode_fails in
  converted "jpeg" decode_fails = false /\
  count is_write trace = 0 /\
  trace = [RecvStart; Do (HeifNewContext true); Do (ReadFromFile "a.heic" true);
           Do (GetPrimaryImageHandle true); Do (FmtPrintf (ConvertingFile "a.heic"));
           Do (DecodeImage false); Do (FmtPrintf CouldNotDecodeImage);
           Do (OsRemove "a.heic" true); Do (FmtPrintf (DeletedOriginalFile "a.heic"));
           RecvDone; WgDone].
Proof. repeat split. Qed.

(** The same on every failure after the primary handle was obtained:
    whenever the conversion did not succeed but control fell through, a
    job with the delete flag removes its source. *)
Lemma source_removed_without_conversion file out fmt q o :
  falls_through fmt o = true -> converted fmt o = false ->
  In (Do (OsRemove file (remove_ok o))) (convertHeic file out fmt q true o).
Proof. intros Hf _. by apply convertHeic_removes_iff. Qed.

(** Replacing the first dot commutes with a prefix that has none. *)
Lemma Replace_dotless_prefix (p s new : string) :
  (forall c, In c (bytes p) -> c <> dot) ->
  Replace (p +:+ s) dot new 1 = p +:+ Replace s dot new 1.
Proof.
  induction p as [|c p IH]; intros Hp; [done |].
  change (String c p +:+ s) with (String c (p +:+ s)).
  cbn [Replace].
  destruct (Ascii.eqb c dot) eqn:E.
  - apply Ascii.eqb_eq in E. exfalso. apply (Hp c); [by left | done].
  - change (String c p +:+ Replace s dot new 1)
      with (String c (p +:+ Replace s dot new 1)).
    f_equal. apply IH. intros c' Hc'. apply Hp. by right.
Qed.

(** Without an output path, and when no directory of the source path has
    a dot in its name, the output is next to the source, named after it. *)
Lemma outFilename_in_place_dotless_dir (d name : string) :
  (forall c, In c (bytes d) -> c <> dot) ->
  outFilename (d +:+ "/" +:+ name) "" = d +:+ "/" +:+ Replace name dot "_" 1.
Proof.
  intros Hd. unfold outFilename. simpl.
  rewrite Replace_dotless_prefix; [| done].
  f_equal.
Qed.

(** C6.  The claim: without an output path the output file is next to the
    source, its name the source file's name with the first dot replaced by
    an underscore, plus the suffix.  The code replaces the first dot of
    the whole path, not of the file's name (line 103; line 105 takes the
    base name first when an output path is given): for "./a.heic" the
    output goes to "_/a.heic.png", for "photos.2024/a.heic" to
    "photos_2024/a.heic.png", both in another directory than the source. *)
Theorem C6_first_dot_of_whole_path_replaced :
  outFilename "./a.heic" "" +:+ ".png" = "_/a.heic.png" /\
  outFilename "photos.2024/a.heic" "" +:+ ".png" = "photos_2024/a.heic.png" /\
  In (Do (OsWriteFile "_/a.heic.png" true))
     (convertHeic "./a.heic" "" "png" 80 false all_ok) /\
  ~ In (Do (OsWriteFile "./a_heic.png" true))
       (convertHeic "./a.heic" "" "png" 80 false all_ok).
Proof.
  split; [reflexivity |]. split; [reflexivity |]. split.
  - simpl. tauto.
  - simpl. intros H. repeat (destruct H as [H | H]; [discriminate H |]). done.
Qed.

(** With an output path the name is the output path followed, without a
    separator, by the transformed base name. *)
Lemma outFilename_explicit (file out : string) :
  out <> "" -> outFilename file out = out +:+ Replace (Base file) dot "_" 1.
Proof.
  intros Hne. unfold outFilename.
  destruct (String.eqb out "") eqn:E; [| done].
  by apply String.eqb_eq in E.
Qed.

(** C7.  The claim: with an output path the output file is the transformed
    base name joined under that directory, and in single-file mode the
    flag names the output file.  The code concatenates the two strings
    (line 106): for the output directory "./converted" the file is
    "./converteda_heic.png", beside the directory and not in it; for the
    single file "input.heic" and the output file "output.jpg" it is
    "output.jpginput_heic.jpg". *)
Theorem C7_output_path_concatenated_not_joined :
  In (Do (OsWriteFile "./converteda_heic.png" true))
     (convertHeic "images/a.heic" "./converted" "png" 80 false all_ok) /\
  count is_write (convertHeic "images/a.heic" "./converted" "png" 80 false all_ok) = 1 /\
  In (Do (OsWriteFile "output.jpginput_heic.jpg" true))
     (convertHeic "input.heic" "output.jpg" "jpeg" 90 false all_ok) /\
  count is_write (convertHeic "input.heic" "output.jpg" "jpeg" 90 false all_ok) = 1.
Proof.
  split; [simpl; tauto |]. split; [reflexivity |].
  split; [simpl; tauto | reflexivity].
Qed.


(** ** The discoverer *)

Lemma first_failure_app (l1 l2 : list visit) :
  first_failure (l1 ++ l2)
  = match first_failure l1 with Some e => Some e | None => first_failure l2 end.
Proof.
  induction l1 as [|v l1 IH]; simpl; [done |].
  by destruct (v_err v).
Qed.

Lemma before_failure_app (l1 l2 : list visit) :
  before_failure (l1 ++ l2)
  = match first_failure l1 with
    | Some _ => before_failure l1
    | None => l1 ++ before_failure l2
    end.
Proof.
  induction l1 as [|v l1 IH]; simpl; [done |].
  destruct (v_err v); [done |].
  rewrite IH. by destruct (first_failure l1).
Qed.

Lemma before_failure_all (l : list visit) :
  first_failure l = None -> before_failure l = l.
Proof.
  induction l as [|v l IH]; simpl; [done |].
  destruct (v_err v); [done |]. intros H. by rewrite IH.
Qed.

Lemma selected_app (l1 l2 : list visit) :
  selected (l1 ++ l2) = selected l1 ++ selected l2.
Proof. apply flat_map_app. Qed.

Lemma first_failure_In (vs : list visit) (e : error) :
  first_failure vs = Some e -> exists v, In v vs /\ v_err v = Some e.
Proof.
  induction vs as [|v vs IH]; simpl; [done |].
  destruct (v_err v) as [e' |] eqn:E.
  - intros [= <-]. exists v. auto.
  - intros H. destruct (IH H) as (v' & Hin & Hv'). eauto.
Qed.

(** The walk itself only ever reports operating-system errors. *)
Lemma visits_errors_os (n : node) :
  forall path v e, In v (visits path n) -> v_err v = Some e -> exists m, e = OsError m.
Proof.
  induction n as [name | name entries IH | name m | name m] using node_ind;
    intros path v e; simpl.
  - intros [<- | []]; done.
  - intros [<- | Hin]; [done |].
    apply in_flat_map in Hin as (k & Hk & Hin).
    rewrite List.Forall_forall in IH. by apply (IH k Hk _ _ _ Hin).
  - intros [<- | []]; simpl; intros [= <-]; eauto.
  - intros [<- | []]; simpl; intros [= <-]; eauto.
Qed.

Lemma first_failure_os path n e :
  first_failure (visits path n) = Some e -> exists m, e = OsError m.
Proof.
  intros H. apply first_failure_In in H as (v & Hin & Hv).
  by apply (visits_errors_os n path v e).
Qed.

(** The walk with the discoverer's callback: the accumulator grows by the
    selected paths among the visits before the first failure, and the
    walk returns that failure. *)
Lemma walk_heicWalkFn (n : node) :
  forall path acc,
    walk heicWalkFn path n acc
    = (acc ++ selected (before_failure (visits path n)),
       first_failure (visits path n)).
Proof.
  induction n as [name | name entries IH | name m | name m] using node_ind;
    intros path acc.
  - simpl. unfold selected, selected_of. simpl.
    destruct (String.eqb _ _) eqn:E; unfold is_heic_name; rewrite E; simpl;
      [done | by rewrite app_nil_r].
  - cbn [walk visits before_failure first_failure v_err].
    set (range := fix range (names : list node) (s : list string) := _).
    assert (Hrange : forall acc',
      range entries acc'
      = (acc' ++ selected (before_failure
                    (flat_map (fun k => visits (Join path (node_name k)) k) entries)),
         first_failure
           (flat_map (fun k => visits (Join path (node_name k)) k) entries))).
    { clear acc. induction IH as [| k r Hk _ IHr]; intros acc'.
      - simpl. by rewrite app_nil_r.
      - cbn [range flat_map]. fold range.
        rewrite Hk, before_failure_app, first_failure_app.
        destruct (first_failure (visits (Join path (node_name k)) k))
          as [e |] eqn:Ef.
        + destruct (first_failure_os _ _ _ Ef) as [m ->]. simpl.
          rewrite orb_true_r. by destruct k.
        + simpl. rewrite IHr, selected_app, (before_failure_all _ Ef), app_assoc.
          done. }
    unfold heicWalkFn at 1. cbn [Name].
    unfold selected at 1. cbn [flat_map selected_of v_info v_path Name].
    fold (is_heic_name name).
    destruct (is_heic_name name); rewrite Hrange; fold selected.
    + by rewrite <- app_assoc.
    + done.
  - simpl. by rewrite app_nil_r.
  - simpl. by rewrite app_nil_r.
Qed.

(** The discoverer returns the selected paths among the entries visited
    before the first failing one, together with that failure. *)
Lemma FindHeicFiles_spec (directory : string) (t : node) :
  FindHeicFiles directory t
  = (selected (before_failure (visits directory t)),
     first_failure (visits directory t)).
Proof.
  unfold FindHeicFiles, Walk. rewrite walk_heicWalkFn. simpl.
  destruct (first_failure (visits directory t)) as [e |] eqn:Ef; [| done].
  by destruct (first_failure_os _ _ _ Ef) as [m ->].
Qed.

Lemma FindHeicFiles_no_failure (directory : string) (t : node) :
  first_failure (visits directory t) = None ->
  FindHeicFiles directory t = (selected (visits directory t), None).
Proof.
  intros H. by rewrite FindHeicFiles_spec, H, before_failure_all.
Qed.

(** What is selected: the path of every visited entry, file or directory,
    whose name has the extension. *)
Lemma In_selected (vs : list visit) (p : string) :
  In p (selected vs)
  <-> exists v info, In v vs /\ v_path v = p /\ v_info v = Some info /\
                     is_heic_name (Name info) = true.
Proof.
  unfold selected. rewrite in_flat_map. split.
  - intros (v & Hv & Hp). unfold selected_of in Hp.
    destruct (v_info v) as [info |] eqn:Ei; [| done].
    destruct (is_heic_name (Name info)) eqn:Eh; [| done].
    destruct Hp as [<- | []]. exists v, info. auto.
  - intros (v & info & Hv & <- & Ei & Eh). exists v. split; [done |].
    unfold selected_of. rewrite Ei, Eh. by left.
Qed.

(** The comparison ignores the case of ASCII letters: lowering the name
    and taking the extension is taking the extension and lowering it. *)
Lemma lower_byte_sep (c : ascii) : is_sep (lower_byte c) = is_sep c.
Proof. destruct c as [[] [] [] [] [] [] [] []]; reflexivity. Qed.

Lemma lower_byte_dot (c : ascii) : Ascii.eqb (lower_byte c) dot = Ascii.eqb c dot.
Proof. destruct c as [[] [] [] [] [] [] [] []]; reflexivity. Qed.

Lemma bytes_ToLower (s : string) : bytes (ToLower s) = map lower_byte (bytes s).
Proof. induction s as [|c s IH]; simpl; [done | by f_equal]. Qed.

Lemma of_bytes_lower (l : list ascii) :
  of_bytes (map lower_byte l) = ToLower (of_bytes l).
Proof. induction l as [|c l IH]; simpl; [done | by f_equal]. Qed.

Lemma ext_scan_lower (l seen : list ascii) :
  ext_scan (map lower_byte l) (map lower_byte seen) = ToLower (ext_scan l seen).
Proof.
  revert seen. induction l as [|c l IH]; intros seen; simpl; [done |].
  rewrite lower_byte_sep, lower_byte_dot.
  destruct (is_sep c); [done |].
  destruct (Ascii.eqb c dot).
  - apply (of_bytes_lower (c :: seen)).
  - apply (IH (c :: seen)).
Qed.

Lemma Ext_ToLower (s : string) : Ext (ToLower s) = ToLower (Ext s).
Proof.
  unfold Ext. rewrite bytes_ToLower, <- map_rev.
  apply (ext_scan_lower _ []).
Qed.

Lemma is_heic_name_case_insensitive (name : string) :
  is_heic_name name = true <-> ToLower (Ext name) = ".heic".
Proof. unfold is_heic_name. rewrite Ext_ToLower. apply String.eqb_eq. Qed.

(** C5.  The claim: the discoverer returns exactly the files with the
    extension and no entry that is not a file.  The callback tests the
    name of every entry the walk visits and never asks whether the entry
    is a directory (line 138): in a directory "d" holding the file
    "a.HEIC", the directory "album.heic" and the file "notes.txt", the
    directory "d/album.heic" is returned along with "d/a.HEIC". *)
Theorem C5_directory_named_heic_is_returned :
  FindHeicFiles "d" album_tree = (["d/a.HEIC"; "d/album.heic"], None) /\
  In {| v_path := "d/album.heic";
        v_info := Some {| Name := "album.heic"; IsDir := true |};
        v_err := None |} (visits "d" album_tree).
Proof. split; [reflexivity | simpl; tauto]. Qed.

(** In general, on a tree that is walked without failure, every directory
    whose name has the extension is returned. *)
Lemma FindHeicFiles_returns_directories directory t v name :
  first_failure (visits directory t) = None ->
  In v (visits directory t) ->
  v_info v = Some {| Name := name; IsDir := true |} ->
  is_heic_name name = true ->
  In (v_path v) (fst (FindHeicFiles directory t)).
Proof.
  intros Hok Hv Hi Hn. rewrite FindHeicFiles_no_failure by done. simpl.
  apply In_selected. exists v, {| Name := name; IsDir := true |}. auto.
Qed.

(** ** Runs and invariants *)

Lemma run_app (P : nat) (sched1 sched2 : list tid) (s : state) :
  run P (sched1 ++ sched2) s
  = match run P sched1 s with Some s' => run P sched2 s' | None => None end.
Proof.
  revert s. induction sched1 as [|t sched1 IH]; intros s; simpl; [done |].
  destruct (exec P t s); [apply IH | done].
Qed.

(** A property that holds initially and is kept by every step holds after
    every run. *)
Lemma run_invariant (P : nat) (I : state -> Prop) :
  (forall t s s', I s -> exec P t s = Some s' -> I s') ->
  forall sched s s', I s -> run P sched s = Some s' -> I s'.
Proof.
  intros Hstep sched. induction sched as [|t sched IH]; intros s s' Hs; simpl.
  - by intros [= <-].
  - destruct (exec P t s) as [s1 |] eqn:E; [| done].
    apply IH. by apply (Hstep t s).
Qed.

(** The states reached by runs are the states reachable by steps. *)
Lemma rtc_step_run (P : nat) (s s' : state) :
  rtc (step P) s s' <-> exists sched, run P sched s = Some s'.
Proof.
  split.
  - induction 1 as [s | s s1 s2 [t Ht] _ (sched & Hrun)].
    + by exists [].
    + exists (t :: sched). simpl. by rewrite Ht.
  - intros (sched & Hrun). revert s Hrun.
    induction sched as [|t sched IH]; intros s; simpl.
    + intros [= <-]. apply rtc_refl.
    + destruct (exec P t s) as [s1 |] eqn:E; [| done].
      intros Hrun. apply rtc_l with s1; [by exists t | by apply IH].
Qed.

Lemma reachable_run (fl : flags) (w : world) (s : state) :
  reachable fl w s <-> exists sched, run (NumCPU w) sched (init fl w) = Some s.
Proof. apply rtc_step_run. Qed.

Lemma count_insert {A} (f : A -> bool) (l : list A) (i : nat) (x y : A) :
  l !! i = Some x ->
  count f (<[i := y]> l) + (if f x then 1 else 0)
  = count f l + (if f y then 1 else 0).
Proof.
  revert i. induction l as [|z l IH]; intros i; [done |].
  destruct i as [|i]; simpl.
  - intros [= ->]. lia.
  - intros H. specialize (IH i H). lia.
Qed.

Lemma holding_insert (l : list worker) (i : nat) (wk wk' : worker) :
  l !! i = Some wk ->
  count holding (<[i := wk']> l)
    + (if reserved wk && negb (released wk) then 1 else 0)
  = count holding l + (if reserved wk' && negb (released wk') then 1 else 0).
Proof. apply (count_insert holding). Qed.

Lemma count_le_impl {A} (f g : A -> bool) (Q : A -> Prop) (l : list A) :
  (forall x, Q x -> f x = true -> g x = true) ->
  Forall Q l -> count f l <= count g l.
Proof.
  intros Hfg. induction 1 as [| x l Hx _ IH]; simpl; [done |].
  destruct (f x) eqn:Ef; [rewrite (Hfg x Hx Ef) |]; lia.
Qed.

Lemma map_job_insert (l : list worker) (i : nat) (wk wk' : worker) :
  l !! i = Some wk -> job wk' = job wk ->
  map job (<[i := wk']> l) = map job l.
Proof.
  revert i. induction l as [|z l IH]; intros i; [done |].
  destruct i as [|i]; simpl.
  - by intros [= ->] ->.
  - intros H Hj. f_equal. by apply IH.
Qed.

(** *** The programs of [main] are well formed *)

Lemma convertHeic_body_no_entry file out fmt q del o :
  count is_entry (convertHeic_body file out fmt q del o ++ [WgDone]) = 0.
Proof.
  all_paths o fmt del; reflexivity.
Qed.

Lemma convertHeic_launch_ok file out fmt q del o :
  launch_ok true (convertHeic file out fmt q del o) /\
  launch_ok false (SendDone :: convertHeic file out fmt q del o).
Proof.
  assert (body_ok (convertHeic_body file out fmt q del o ++ [WgDone])) as Hb.
  { split; [apply convertHeic_body_no_entry |].
    pose proof (convertHeic_release_count file out fmt q del o) as Hc.
    change (count is_RecvDone (convertHeic file out fmt q del o))
      with (count is_RecvDone (convertHeic_body file out fmt q del o ++ [WgDone]))
      in Hc.
    rewrite Hc.
    destruct (falls_through fmt o); lia. }
  split; simpl; eauto.
Qed.

Lemma main_ok_app (pend : bool) (a b : list minstr) :
  main_ok pend a -> main_ok false b -> main_ok pend (a ++ b).
Proof.
  revert pend. induction a as [|i a IH]; intros pend; simpl.
  - by intros ->.
  - destruct i; intros Ha Hb; simpl in *; intuition auto.
Qed.

Lemma main_ok_main (fl : flags) (w : world) : main_ok false (main fl w).
Proof.
  unfold main. split; [done |].
  apply main_ok_app; [| done].
  destruct (String.eqb (inputFile fl) ""); simpl.
  - destruct (String.eqb (inputDir fl) ""); simpl; [done |].
    apply (main_ok_app false (stat_check _ _ _)).
    { unfold stat_check. by destruct (stat_not_exist w (inputDir fl)). }
    split; [done |].
    destruct (FindHeicFiles _ _) as [files err].
    apply main_ok_app; [by destruct err |].
    induction files as [|f files IH]; simpl; [done |].
    repeat split; [| done]. apply convertHeic_launch_ok.
  - apply (main_ok_app false (stat_check _ _ _)).
    { unfold stat_check. by destruct (stat_not_exist w (inputFile fl)). }
    simpl. repeat split. apply convertHeic_launch_ok.
Qed.

(** Every [go] of main starts the worker of its job, with the reservation
    first unless main has made it. *)
Lemma main_go_conv (fl : flags) (w : world) : Forall (go_conv fl w) (main fl w).
Proof.
  unfold main, stat_check.
  destruct (String.eqb (inputFile fl) ""); cbn [negb].
  - destruct (String.eqb (inputDir fl) ""); cbn [negb]; [by repeat constructor |].
    destruct (FindHeicFiles _ _) as [files err].
    constructor; [done |]. apply Forall_app. split; [| by repeat constructor].
    apply Forall_app. split; [by destruct (stat_not_exist _ _); repeat constructor |].
    constructor; [done |]. apply Forall_app. split; [by destruct err; repeat constructor |].
    induction files as [|f fs IH]; simpl; by repeat constructor.
  - constructor; [done |]. apply Forall_app. split; [| by repeat constructor].
    apply Forall_app. split; [by destruct (stat_not_exist _ _); repeat constructor |].
    by repeat constructor.
Qed.

(** *** The slot invariant *)

Lemma slot_inv_init (fl : flags) (w : world) : slot_inv (NumCPU w) (init fl w).
Proof.
  exists false. simpl. repeat split; [apply main_ok_main | constructor | lia].
Qed.

Lemma slot_inv_step (P : nat) (t : tid) (s s' : state) :
  slot_inv P s -> exec P t s = Some s' -> slot_inv P s'.
Proof.
  intros (pend & Hm & Hw & Hs & HP) H. destruct t as [| i]; simpl in H.
  - exec_main_cases H.
    + destruct Hm as [-> Hm]. exists false. sproj. auto.
    + destruct Hm as [-> Hm]. exists false. sproj. auto.
    + destruct Hm as [-> Hm]. exists true. sproj.
      apply Nat.ltb_lt in Eg. simpl in *. repeat split; [done | done | lia | lia].
    + destruct Hm as (-> & Hl & Hm). exists false. sproj.
      repeat split; [done | | | done].
      * apply Forall_app. split; [done |]. by repeat constructor.
      * rewrite count_app. unfold holding at 2. simpl.
        rewrite andb_true_r. destruct pend; lia.
    + destruct Hm as [-> Hm]. exists false. sproj. auto.
    + destruct Hm as [-> Hm]. exists false. sproj. auto.
  - exec_worker_cases H;
      pose proof (Forall_lookup_1 _ _ _ _ Hw Ew) as Hwk;
      unfold worker_inv in Hwk; rewrite Ep in Hwk;
      destruct (past wk) eqn:Epast; simpl in Hwk;
      try (destruct Hwk as (_ & Hwk & _); discriminate Hwk);
      try (destruct Hwk as (Hrel & Hl); unfold launch_ok in Hl;
           destruct (reserved wk) eqn:Eres;
           destruct Hl as (t & [= Ht] & Hb); subst);
      try destruct Hwk as (Hres & He & Hr);
      exists pend; sproj;
      match goal with
      | |- context [<[i := ?w']> (workers s)] =>
          pose proof (holding_insert (workers s) i wk w' Ew) as Hc
      end;
      sproj.
    + (* SendDone *)
      apply Nat.ltb_lt in Eg.
      rewrite ?Eres, ?Hrel in Hc; rewrite ?Eres, ?Hrel. cbn [andb negb] in Hc.
      repeat split; [done | | lia | lia].
      apply Forall_insert; [done |].
      unfold worker_inv; sproj. split; [done |]. simpl. eauto.
    + (* RecvStart *)
      rewrite ?Eres, ?Hrel in Hc; rewrite ?Eres, ?Hrel. cbn [andb negb] in Hc.
      repeat split; [done | | lia | done].
      apply Forall_insert; [done |].
      unfold worker_inv; sproj. destruct Hb. auto.
    + (* RecvDone *)
      destruct (released wk) eqn:Erel; [lia |].
      rewrite ?Hres in Hc; rewrite ?Hres. cbn [andb negb] in Hc.
      repeat split; [done | | lia | lia].
      apply Forall_insert; [done |].
      unfold worker_inv; sproj. repeat split; [done | lia].
    + (* WgDone *)
      repeat split; [done | | lia | done].
      apply Forall_insert; [done |].
      unfold worker_inv; sproj. auto.
    + (* an external call *)
      repeat split; [done | | lia | done].
      apply Forall_insert; [done |].
      unfold worker_inv; sproj. auto.
Qed.

Lemma slot_inv_run (fl : flags) (w : world) (sched : list tid) (s : state) :
  run (NumCPU w) sched (init fl w) = Some s -> slot_inv (NumCPU w) s.
Proof.
  apply (run_invariant (NumCPU w) (slot_inv (NumCPU w))).
  - apply slot_inv_step.
  - apply slot_inv_init.
Qed.

(** A worker in the body holds a slot. *)
Lemma in_body_holding (wk : worker) :
  worker_inv wk -> in_body wk = true -> holding wk = true.
Proof.
  unfold worker_inv, in_body, holding.
  destruct (past wk); [| done].
  intros (-> & _) H. done.
Qed.

(** *** The jobs invariant: workers and pending launches together are the
    jobs of the invocation, in order *)

Lemma launches_app (a b : list minstr) :
  launches (a ++ b) = launches a ++ launches b.
Proof.
  induction a as [|i a IH]; simpl; [done |].
  destruct i; simpl; by rewrite ?IH.
Qed.

Lemma launches_dir_loop (g : string -> list action) (files : list string) :
  launches (flat_map (fun file => [WgAdd; Go file false (g file)]) files) = files.
Proof. induction files as [|f fs IH]; simpl; [done | by f_equal]. Qed.

Lemma jobs_step (P : nat) (t : tid) (s s' : state) :
  exec P t s = Some s' ->
  map job (workers s') ++ launches (mprog s')
  = map job (workers s) ++ launches (mprog s).
Proof.
  intros H. destruct t as [| i]; simpl in H.
  - exec_main_cases H; rewrite ?Em; simpl; try done.
    by rewrite map_app, <- app_assoc.
  - exec_worker_cases H; f_equal; by apply map_job_insert with wk.
Qed.

Lemma jobs_run (fl : flags) (w : world) (sched : list tid) (s : state) :
  run (NumCPU w) sched (init fl w) = Some s ->
  map job (workers s) ++ launches (mprog s) = launches (main fl w).
Proof.
  apply (run_invariant (NumCPU w)
    (fun s => map job (workers s) ++ launches (mprog s) = launches (main fl w))).
  - intros t s1 s2 Hs H. by rewrite (jobs_step _ _ _ _ H).
  - done.
Qed.

(** *** The barrier invariant: [close(start)] comes after every [go] *)

Lemma launches_after_close_nil (p : list minstr) :
  launches p = [] -> launches_after_close p = [].
Proof.
  induction p as [|i p IH]; simpl; [done |].
  destruct i; simpl; auto. discriminate.
Qed.

Lemma launches_after_close_app (a b : list minstr) :
  launches b = [] -> launches_after_close (a ++ b) = launches_after_close a.
Proof.
  intros Hb. induction a as [|i a IH]; simpl.
  - by apply launches_after_close_nil.
  - destruct i; simpl; auto. by rewrite launches_app, Hb, app_nil_r.
Qed.

Lemma launches_after_close_main (fl : flags) (w : world) :
  launches_after_close (main fl w) = [].
Proof.
  unfold main. cbn [launches_after_close].
  set (tl := [CloseStart; WgWait; MDo (FmtPrintf AllConversionsCompleted)]).
  assert (forall a, launches_after_close a = [] ->
                    launches_after_close (a ++ tl) = []) as Htl.
  { intros a Ha. induction a as [|i a IH]; simpl; [done |].
    destruct i; simpl in *; auto.
    by rewrite launches_app, Ha. }
  apply Htl.
  destruct (String.eqb (inputFile fl) ""); simpl.
  - destruct (String.eqb (inputDir fl) ""); simpl; [done |].
    destruct (stat_not_exist w (inputDir fl)); simpl;
      destruct (FindHeicFiles _ _) as [files [e |]]; simpl;
      induction files as [|f files IH]; simpl; done.
  - by destruct (stat_not_exist w (inputFile fl)).
Qed.

Lemma barrier_step (P : nat) (t : tid) (s s' : state) :
  barrier_inv s -> exec P t s = Some s' -> barrier_inv s'.
Proof.
  intros [Ha Hs] H. destruct t as [| i]; simpl in H.
  - exec_main_cases H; unfold barrier_inv; sproj; simpl in *;
      try (split; [done | done]).
    + split; [done |]. intros Hst. by specialize (Hs Hst).
    + split; [by apply launches_after_close_nil | done].
  - exec_worker_cases H; unfold barrier_inv; sproj; done.
Qed.

Lemma barrier_run (fl : flags) (w : world) (sched : list tid) (s : state) :
  run (NumCPU w) sched (init fl w) = Some s -> barrier_inv s.
Proof.
  apply (run_invariant (NumCPU w) barrier_inv).
  - apply barrier_step.
  - split; [apply launches_after_close_main | done].
Qed.

(** *** In single-file mode every worker is launched with its slot *)



(** ** The invocation-level claims *)

(** C8.  In every state of every run, the workers that are past the start
    barrier and have not released a slot number at most the capacity of
    [done], which is the number of logical CPUs. *)
Theorem C8_at_most_NumCPU_workers_in_body fl w sched s :
  run (NumCPU w) sched (init fl w) = Some s ->
  count_workers in_body s <= NumCPU w.
Proof.
  intros Hrun.
  destruct (slot_inv_run fl w sched s Hrun) as (pend & _ & Hw & Hs & HP).
  unfold count_workers.
  pose proof (count_le_impl in_body holding worker_inv (workers s)
                in_body_holding Hw).
  lia.
Qed.

Lemma C8_at_most_NumCPU_workers_in_body_witness :
  run 1 sched_first_in_body (init dir_flags two_files_world)
    = Some state_first_in_body /\
  count_workers in_body state_first_in_body = 1 /\
  count_workers in_body state_first_in_body <= NumCPU two_files_world.
Proof.
  split; [reflexivity |]. split; [reflexivity |].
  apply (C8_at_most_NumCPU_workers_in_body dir_flags two_files_world
           sched_first_in_body state_first_in_body).
  reflexivity.
Defined.

(** C10.  When [--input_file] is given, whatever [--input_dir] is: the
    only job is that file, [filepath.Walk] is not called, the program of
    main does not depend on the file tree, and in every run every worker
    works on that file. *)
Theorem C10_input_file_takes_precedence fl w :
  inputFile fl <> "" ->
  launches (main fl w) = [inputFile fl] /\
  walks (main fl w) = [] /\
  (forall t, main fl {| NumCPU := NumCPU w; stat_not_exist := stat_not_exist w;
                        tree := t; codec := codec w |} = main fl w) /\
  (forall sched s, run (NumCPU w) sched (init fl w) = Some s ->
     forall wk, In wk (workers s) -> job wk = inputFile fl).
Proof.
  intros Hne. apply String.eqb_neq in Hne.
  assert (launches (main fl w) = [inputFile fl]) as Hl.
  { unfold main. rewrite Hne. simpl.
    by destruct (stat_not_exist w (inputFile fl)). }
  split; [done |]. split; [| split].
  - unfold main. rewrite Hne. simpl.
    by destruct (stat_not_exist w (inputFile fl)).
  - intros t. unfold main. by rewrite Hne.
  - intros sched s Hrun wk Hin.
    pose proof (jobs_run fl w sched s Hrun) as Hj. rewrite Hl in Hj.
    assert (In (job wk) (map job (workers s) ++ launches (mprog s))) as Hin'.
    { apply in_or_app. left. by apply in_map. }
    rewrite Hj in Hin'. by destruct Hin' as [<- | []].
Qed.

Lemma C10_input_file_takes_precedence_witness :
  inputFile both_flags <> "" /\
  launches (main both_flags two_files_world) = ["a.heic"] /\
  walks (main both_flags two_files_world) = [].
Proof.
  split; [discriminate |].
  pose proof (C10_input_file_takes_precedence both_flags two_files_world) as H.
  destruct H as (H1 & H2 & _); [discriminate |].
  split; [exact H1 | exact H2].
Defined.







(** C3, as stated, fails.  [FindHeicFiles] returns the paths collected so
    far along with the error; main prints the error and does not return
    (lines 175-177), so the loop of line 178 launches a worker for each of
    those paths, and that worker runs. *)
Lemma C3_workers_run_after_walk_failure :
  FindHeicFiles "d" (tree partial_world "d")
    = (["d/a.heic"], Some (OsError "permission denied")) /\
  launches (main dir_flags partial_world) = ["d/a.heic"] /\
  option_map
    (fun s => (completed s, map job (workers s), map past (workers s),
               map prog (workers s)))
    (run 1 sched_partial (init dir_flags partial_world))
  = Some (true, ["d/a.heic"], [true], [[]]).
Proof. split; [reflexivity |]. split; reflexivity. Qed.

(** C3, amended.  In directory mode, when the walk fails on an entry, the
    discoverer stops at that entry and returns its error together with the
    selected paths among the entries visited before it; main reports the
    error and launches one worker for each of those paths, and no other. *)
Theorem C3_walk_failure_reported_and_partial_batch_launched fl w e :
  inputFile fl = "" -> inputDir fl <> "" ->
  first_failure (visits (inputDir fl) (tree w (inputDir fl))) = Some e ->
  FindHeicFiles (inputDir fl) (tree w (inputDir fl))
    = (selected (before_failure (visits (inputDir fl) (tree w (inputDir fl)))),
       Some e) /\
  In (MDo (FmtPrintf (ErrorFindingHeicFiles e))) (main fl w) /\
  launches (main fl w)
    = selected (before_failure (visits (inputDir fl) (tree w (inputDir fl)))).
Proof.
  intros Hf Hd He. apply String.eqb_neq in Hd.
  pose proof (FindHeicFiles_spec (inputDir fl) (tree w (inputDir fl))) as Hs.
  rewrite He in Hs. split; [done |].
  unfold main. rewrite Hf, Hd, Hs. cbn [String.eqb negb].
  split.
  - right. apply in_or_app. left. apply in_or_app. right.
    right. apply in_or_app. left. by left.
  - cbn [launches]. rewrite !launches_app. cbn [launches app].
    rewrite (launches_dir_loop (fun file =>
      SendDone :: convertHeic file (outputPath fl) (format fl) (quality fl)
                    (deleteOriginal fl) (codec w file))).
    rewrite app_nil_r.
    unfold stat_check. by destruct (stat_not_exist w (inputDir fl)).
Qed.

Lemma C3_walk_failure_reported_and_partial_batch_launched_witness :
  inputFile dir_flags = "" /\ inputDir dir_flags <> "" /\
  first_failure (visits "d" (tree partial_world "d"))
    = Some (OsError "permission denied") /\
  launches (main dir_flags partial_world)
    = selected (before_failure (visits "d" (tree partial_world "d"))).
Proof.
  split; [reflexivity |]. split; [discriminate |]. split; [reflexivity |].
  apply (C3_walk_failure_reported_and_partial_batch_launched
           dir_flags partial_world (OsError "permission denied"));
    [reflexivity | discriminate | reflexivity].
Defined.






(** The return of line 116 keeps the slot: on one CPU the worker of the
    next job, decodable as it is, never gets one, takes no step and
    reports nothing, and main waits for it forever. *)
Lemma unsupported_format_starves_next_job :
  run 1 sched_gif_starved (init gif_dir_flags two_files_world)
    = Some state_gif_starved /\
  completed state_gif_starved = false /\
  map reserved (workers state_gif_starved) = [true; false] /\
  map prog (workers state_gif_starved)
    = [[]; SendDone :: convertHeic "d/b.heic" "" "gif" 80 false all_ok] /\
  stuck 1 state_gif_starved.
Proof.
  split; [reflexivity |]. split; [reflexivity |]. split; [reflexivity |].
  split; [reflexivity |].
  intros [| [| [| i]]]; reflexivity.
Qed.

(** C1.  The claim: the slot acquired for a job is released exactly once
    on every exit path, so that at completion releases and jobs are equal
    in number.  The release is the last statement of [convertHeic] (line
    128) and is not deferred, unlike [wg.Done()] (line 76): the returns of
    lines 82, 87, 93 and 116 leave without it.  Here the run is complete,
    there was one job, no slot was released, and [done] still holds the
    job's slot. *)
Theorem C1_slot_not_released_on_early_return :
  option_map
    (fun s => (completed s, map job (workers s), map prog (workers s),
               releases s, slots s))
    (run 1 sched_read_fail (init file_flags unreadable_world))
  = Some (true, ["a.heic"], [[]], 0, 1).
Proof. reflexivity. Qed.

(** The four early returns, and only they, end a worker without a
    release. *)
Lemma convertHeic_leaks_iff file out fmt q del o :
  count is_RecvDone (convertHeic file out fmt q del o) = 0
  <-> ctx_ok o = false \/ read_ok o = false \/ handle_ok o = false \/
      (decodes o = true /\ fmt <> "jpeg" /\ fmt <> "png").
Proof.
  rewrite convertHeic_release_count. unfold falls_through, decodes.
  rewrite <- !String.eqb_neq.
  destruct (ctx_ok o), (read_ok o), (handle_ok o), (decode_ok o), (image_ok o),
    (String.eqb fmt "jpeg"), (String.eqb fmt "png"); simpl;
    split; intros H; try done; try tauto; try lia;
    repeat (destruct H as [H | H]; try done); try (destruct H as (? & ? & ?); done).
Qed.

(** The slot that was not released is missing for the next job: the
    second worker waits for it for ever, and so does main for the second
    worker. *)
Lemma leaked_slot_starves_next_job :
  run 1 sched_starved (init dir_flags unreadable_world) = Some state_starved /\
  completed state_starved = false /\
  map reserved (workers state_starved) = [true; false] /\
  stuck 1 state_starved.
Proof.
  split; [reflexivity |]. split; [reflexivity |]. split; [reflexivity |].
  intros [| [| [| i]]]; reflexivity.
Qed.

(** ** The state at completion *)

Lemma ends_with_WgDone_step (a : action) (rest : list action) :
  ends_with_WgDone (a :: rest) ->
  (a = WgDone /\ rest = []) \/ (is_WgDone a = false /\ ends_with_WgDone rest).
Proof.
  intros (t & Ht & Hc). destruct t as [| b t]; simpl in *.
  - injection Ht as -> ->. by left.
  - injection Ht as -> ->. right.
    destruct (is_WgDone b) eqn:E; [lia |]. split; [done |]. by exists t.
Qed.

Lemma convertHeic_ends_with_WgDone file out fmt q del o :
  ends_with_WgDone (convertHeic file out fmt q del o) /\
  ends_with_WgDone (SendDone :: convertHeic file out fmt q del o).
Proof.
  assert (count is_WgDone (convertHeic_body file out fmt q del o) = 0) as Hb.
  { all_paths o fmt del; reflexivity. }
  split.
  - by exists (RecvStart :: convertHeic_body file out fmt q del o).
  - by exists (SendDone :: RecvStart :: convertHeic_body file out fmt q del o).
Qed.

(** The program of main: a prefix that launches, then close, wait and the
    final notice. *)
Lemma main_structure (fl : flags) (w : world) :
  exists pre,
    main fl w
      = pre ++ [CloseStart; WgWait; MDo (FmtPrintf AllConversionsCompleted)] /\
    count is_WgWait pre = 0 /\
    count is_WgAdd pre = count is_Go pre /\
    Forall go_ends_with_WgDone pre /\
    Forall (go_release fl w) pre.
Proof.
  unfold main.
  destruct (String.eqb (inputFile fl) "") eqn:Ef; cbn [negb].
  - destruct (String.eqb (inputDir fl) "") eqn:Ed; cbn [negb].
    + eexists (_ :: _). split; [reflexivity |]. simpl. repeat split; repeat constructor.
    + destruct (FindHeicFiles _ _) as [files err].
      eexists (_ :: _). split; [reflexivity |].
      set (loop := flat_map _ files).
      assert (count is_WgWait loop = 0 /\ count is_WgAdd loop = count is_Go loop /\
              Forall go_ends_with_WgDone loop /\ Forall (go_release fl w) loop)
        as (H1 & H2 & H3 & H4).
      { subst loop. induction files as [|f files (I1 & I2 & I3 & I4)]; simpl.
        - repeat split; constructor.
        - repeat split; [done | lia | |].
          + repeat constructor; [| done]. apply convertHeic_ends_with_WgDone.
          + repeat constructor; [| done]. simpl.
            change (count is_RecvDone (convertHeic f (outputPath fl) (format fl)
                      (quality fl) (deleteOriginal fl) (codec w f))
                    = b2n (gives_back fl w f)).
            rewrite convertHeic_release_count. done. }
      unfold stat_check.
      destruct (stat_not_exist w (inputDir fl)), err; simpl;
        rewrite ?H1, ?H2; repeat split; repeat constructor; done.
  - eexists (_ :: _). split; [reflexivity |].
    unfold stat_check.
    assert (count is_RecvDone (convertHeic (inputFile fl) (outputPath fl) (format fl)
              (quality fl) (deleteOriginal fl) (codec w (inputFile fl)))
            = b2n (gives_back fl w (inputFile fl))) as Hr
      by (by rewrite convertHeic_release_count).
    destruct (stat_not_exist w (inputFile fl)); simpl;
      repeat split; repeat constructor; try done;
      apply convertHeic_ends_with_WgDone.
Qed.

Lemma wait_ok_app (a b : list minstr) :
  count is_WgWait a = 0 -> wait_ok b -> wait_ok (a ++ b).
Proof.
  induction a as [|i a IH]; simpl; [done |].
  destruct i; simpl; intros; try apply IH; try done; lia.
Qed.

Lemma wg_inv_init (fl : flags) (w : world) : wg_inv (init fl w).
Proof.
  destruct (main_structure fl w) as (pre & Hm & Hw & Ha & Hg & _).
  unfold wg_inv, init; sproj. rewrite Hm, !count_app. simpl.
  repeat split; try lia; try (by constructor).
  - apply Forall_app. split; [done |]. repeat constructor.
  - apply wait_ok_app; [done |]. simpl. lia.
Qed.

Lemma count_zero_lookup {A} (f : A -> bool) (l : list A) (i : nat) (x : A) :
  count f l = 0 -> l !! i = Some x -> f x = false.
Proof.
  revert i. induction l as [|y l IH]; intros i; [done |].
  simpl. destruct (f y) eqn:E; [lia |].
  destruct i as [|i]; simpl; [by intros _ [= <-] | by apply IH].
Qed.

Lemma wait_ok_none (p : list minstr) : count is_WgWait p = 0 -> wait_ok p.
Proof.
  induction p as [|i p IH]; simpl; [done |].
  destruct i; simpl; auto. lia.
Qed.

Lemma ends_with_WgDone_nonempty (p : list action) :
  ends_with_WgDone p -> match p with [] => false | _ => true end = true.
Proof. intros (t & -> & _). by destruct t. Qed.

Lemma ends_with_WgDone_weight (p : list action) :
  ends_with_WgDone p -> match p with [] => 0 | _ => 1 end = 1.
Proof. intros (t & -> & _). by destruct t. Qed.

Lemma unfinished_insert (l : list worker) (i : nat) (wk wk' : worker) :
  l !! i = Some wk ->
  count unfinished (<[i := wk']> l) + match prog wk with [] => 0 | _ => 1 end
  = count unfinished l + match prog wk' with [] => 0 | _ => 1 end.
Proof.
  intros H.
  assert (forall x, match prog x with [] => 0 | _ => 1 end
                    = if unfinished x then 1 else 0) as Hu
    by (intros x; unfold unfinished; by destruct (prog x)).
  rewrite !Hu. by apply count_insert.
Qed.

Lemma wg_inv_step (P : nat) (t : tid) (s s' : state) :
  wg_inv s -> exec P t s = Some s' -> wg_inv s'.
Proof.
  intros (Hc & Hw & Hg & Hwait & Hdone) H. destruct t as [| i]; simpl in H.
  - exec_main_cases H; unfold wg_inv; sproj;
      apply Forall_cons_1 in Hg as [Hi Hg];
      refine (conj _ (conj _ (conj _ (conj _ _)))); try done.
    + (* wg.Add(1) *) lia.
    + intros H0. specialize (Hdone H0). lia.
    + (* go *)
      rewrite count_app. simpl. unfold unfinished at 2. sproj.
      simpl in Hi. rewrite (ends_with_WgDone_nonempty _ Hi). lia.
    + apply Forall_app. split; [done |]. apply Forall_singleton. by right.
    + intros H0. specialize (Hdone H0). lia.
    + (* wg.Wait() *) apply wait_ok_none. lia.
    + apply Nat.eqb_eq in Eg. lia.
  - exec_worker_cases H; unfold wg_inv; sproj;
      pose proof (Forall_lookup_1 _ _ _ _ Hw Ew) as Hwk; simpl in Hwk;
      rewrite Ep in Hwk; destruct Hwk as [Hwk | Hwk]; try discriminate Hwk;
      apply ends_with_WgDone_step in Hwk as [[Ha Hr] | [Ha Hr]];
      try discriminate Ha;
      match goal with
      | |- context [<[i := ?w']> (workers s)] =>
          pose proof (unfinished_insert (workers s) i wk w' Ew) as Hci
      end;
      sproj; rewrite Ep in Hci;
      try rewrite (ends_with_WgDone_weight _ Hr) in Hci;
      try (rewrite Hr in Hci; rewrite Hr);
      refine (conj _ (conj _ (conj _ (conj _ _)))); try done; try lia;
      try (apply Forall_insert; [done |]; sproj; by auto);
      intros H0; specialize (Hdone H0) as (_ & _ & Hu);
      pose proof (count_zero_lookup _ _ _ _ Hu Ew) as Hf;
      unfold unfinished in Hf; rewrite Ep in Hf; discriminate Hf.
Qed.

Lemma wg_inv_run (fl : flags) (w : world) (sched : list tid) (s : state) :
  run (NumCPU w) sched (init fl w) = Some s -> wg_inv s.
Proof.
  apply (run_invariant (NumCPU w) wg_inv).
  - apply wg_inv_step.
  - apply wg_inv_init.
Qed.

Lemma release_inv_init (fl : flags) (w : world) : release_inv fl w (init fl w).
Proof.
  destruct (main_structure fl w) as (pre & Hm & _ & _ & _ & Hr).
  split; [| constructor]. simpl. rewrite Hm.
  apply Forall_app. split; [done |]. by repeat constructor.
Qed.

Lemma release_inv_step (fl : flags) (w : world) (P : nat) (t : tid) (s s' : state) :
  release_inv fl w s -> exec P t s = Some s' -> release_inv fl w s'.
Proof.
  intros [Hg Hw] H. destruct t as [| i]; simpl in H.
  - exec_main_cases H; unfold release_inv; sproj;
      apply Forall_cons_1 in Hg as [Hi Hg]; try done.
    split; [done |]. apply Forall_app. split; [done |].
    apply Forall_singleton. sproj. simpl in Hi. rewrite Hi. simpl. lia.
  - exec_worker_cases H; unfold release_inv; sproj;
      pose proof (Forall_lookup_1 _ _ _ _ Hw Ew) as Hwk; simpl in Hwk;
      rewrite Ep in Hwk; simpl in Hwk;
      (split; [done |]); apply Forall_insert; try done; sproj; try done.
    unfold b2n in *. destruct (released wk), (gives_back fl w (job wk)); lia.
Qed.

Lemma release_inv_run (fl : flags) (w : world) (sched : list tid) (s : state) :
  run (NumCPU w) sched (init fl w) = Some s -> release_inv fl w s.
Proof.
  apply (run_invariant (NumCPU w) (release_inv fl w)).
  - apply release_inv_step.
  - apply release_inv_init.
Qed.

Lemma count_map {A B} (f : B -> bool) (g : A -> B) (l : list A) :
  count f (map g l) = count (fun x => f (g x)) l.
Proof. induction l as [|x l IH]; simpl; [done | by rewrite IH]. Qed.

Lemma count_ext_Forall {A} (f g : A -> bool) (l : list A) :
  Forall (fun x => f x = g x) l -> count f l = count g l.
Proof. induction 1 as [|x l Hx _ IH]; simpl; [done | by rewrite Hx, IH]. Qed.

(** When main has returned, every job has been launched and every worker
    has returned; the slots given back are those of the jobs whose worker
    fell through, and the slots of the others are still in [done]. *)
Lemma releases_at_completion (fl : flags) (w : world) (sched : list tid) (s : state) :
  run (NumCPU w) sched (init fl w) = Some s -> completed s = true ->
  map job (workers s) = launches (main fl w) /\
  Forall (fun wk => prog wk = []) (workers s) /\
  releases s = count (gives_back fl w) (launches (main fl w)) /\
  slots s + releases s = length (launches (main fl w)).
Proof.
  intros Hrun Hc. unfold completed in Hc.
  destruct (mprog s) as [|] eqn:Em; [clear Hc | done].
  pose proof (jobs_run fl w sched s Hrun) as Hj.
  rewrite Em, app_nil_r in Hj.
  destruct (wg_inv_run fl w sched s Hrun) as (_ & _ & _ & _ & Hd).
  rewrite Em in Hd. destruct Hd as (_ & _ & Hu); [done |].
  assert (Forall (fun wk => prog wk = []) (workers s)) as Hfin.
  { apply Forall_lookup. intros i wk Hi.
    pose proof (count_zero_lookup _ _ _ _ Hu Hi) as Hf.
    unfold unfinished in Hf. by destruct (prog wk). }
  destruct (release_inv_run fl w sched s Hrun) as [_ Hr].
  assert (Forall (fun wk => released wk = gives_back fl w (job wk)) (workers s))
    as Hrel.
  { apply Forall_lookup. intros i wk Hi.
    pose proof (Forall_lookup_1 _ _ _ _ Hr Hi) as H1.
    pose proof (Forall_lookup_1 _ _ _ _ Hfin Hi) as H2.
    simpl in H1, H2. rewrite H2 in H1. simpl in H1.
    unfold b2n in H1. destruct (released wk), (gives_back fl w (job wk)); done. }
  assert (releases s = count (gives_back fl w) (launches (main fl w))) as Hn.
  { unfold releases, count_workers. rewrite <- Hj, count_map.
    by apply count_ext_Forall. }
  split; [done |]. split; [done |]. split; [done |].
  destruct (slot_inv_run fl w sched s Hrun) as (pend & Hm & Hw & Hs & _).
  rewrite Em in Hm. simpl in Hm. subst pend.
  rewrite <- Hj, length_map.
  assert (count holding (workers s) + count released (workers s)
          = length (workers s)) as Hsum.
  { clear -Hw Hfin. induction (workers s) as [|wk l IH]; [done |].
    apply Forall_cons_1 in Hw as [Hwk Hw]. apply Forall_cons_1 in Hfin as [Hp Hfin].
    specialize (IH Hfin Hw). simpl.
    unfold worker_inv in Hwk. rewrite Hp in Hwk. unfold holding at 1.
    destruct (past wk).
    - destruct Hwk as (-> & _). destruct (released wk); simpl; lia.
    - destruct Hwk as (_ & Hl). unfold launch_ok in Hl.
      destruct (reserved wk); by destruct Hl as (t & Ht & _). }
  unfold releases, count_workers. lia.
Qed.

(** * Further properties of the code *)

(** ** The worker and the two save functions *)

Lemma convertHeic_write_shape file out fmt q del o :
  Forall (fun a => is_write a = true ->
                   a = Do (OsWriteFile (outFilename file out +:+ suffix_of fmt)
                                       (write_ok o)))
         (convertHeic file out fmt q del o).
Proof.
  by_paths o.
  all: repeat constructor.
  all: intros H; simpl in H; first [discriminate H | reflexivity].
Qed.

(** X1.  The worker attempts one write when every step through encoding
    succeeded and the format is supported, and none otherwise; the write
    is to the derived output name with the suffix of the format. *)
Theorem worker_writes_only_its_output file out fmt q del o :
  count is_write (convertHeic file out fmt q del o)
  = (if decodes o && (String.eqb fmt "jpeg" || String.eqb fmt "png") && encode_ok o
     then 1 else 0) /\
  Forall (fun a => is_write a = true ->
                   a = Do (OsWriteFile (outFilename file out +:+ suffix_of fmt)
                                       (write_ok o)))
         (convertHeic file out fmt q del o).
Proof.
  split; [apply convertHeic_write_count | apply convertHeic_write_shape].
Qed.

(** X2.  The notice "HEIC image saved as ..." is printed exactly when every
    step up to and including the write succeeded, and it names the file
    that was written. *)
Theorem saved_notice_iff_converted file out fmt q del o name :
  In (Do (FmtPrintf (ImageSavedAs name))) (convertHeic file out fmt q del o)
  <-> converted fmt o = true /\ name = outFilename file out +:+ suffix_of fmt.
Proof.
  by_paths o.
  all: split;
    [ intros H;
      repeat (destruct H as [H | H];
              [first [discriminate H
                     | injection H as H; rewrite <- H; split; reflexivity] |]);
      destruct H
    | intros [Hc ->]; try discriminate Hc; simpl; tauto ].
Qed.

(** X4.  The shape of every trace of the worker: it first waits for the
    barrier, then performs external calls only, then gives its slot back
    if and only if control fell through the decode/encode block, and
    last, on every path, signals the wait group once. *)
Theorem worker_protocol file out fmt q del o :
  convertHeic file out fmt q del o
  = RecvStart :: filter (fun a => is_Do a = true) (convertHeic file out fmt q del o)
      ++ (if falls_through fmt o then [RecvDone] else []) ++ [WgDone].
Proof. by_paths o; reflexivity. Qed.

(** X5.  The quality flag is handed to the JPEG encoder as it is, whatever
    its value (the program neither checks nor clamps it), and for every
    other format the worker does the same whatever the quality. *)
Theorem quality_only_reaches_the_jpeg_encoder file out fmt q q' del o :
  (fmt = "jpeg" -> decodes o = true ->
   In (Do (JpegEncode q (encode_ok o))) (convertHeic file out fmt q del o)) /\
  (fmt <> "jpeg" ->
   convertHeic file out fmt q del o = convertHeic file out fmt q' del o).
Proof.
  split.
  - intros -> Hd. unfold decodes in Hd.
    destruct o as [[] [] [] [] [] e wr rm]; try discriminate Hd.
    simpl. tauto.
  - intros Hne. apply String.eqb_neq in Hne.
    unfold convertHeic, convertHeic_body. by rewrite Hne.
Qed.

(** X6.  [os.Remove] is called at most once, never without the delete
    flag, and only on the worker's own source file. *)
Theorem worker_removes_only_its_source file out fmt q del o :
  count is_remove (convertHeic file out fmt q del o) <= (if del then 1 else 0) /\
  Forall (fun a => is_remove a = true -> a = Do (OsRemove file (remove_ok o)))
         (convertHeic file out fmt q del o).
Proof.
  by_paths o.
  all: split; [simpl; lia |].
  all: repeat constructor.
  all: intros H; simpl in H; first [discriminate H | reflexivity].
Qed.

(** X7.  A job whose conversion fails prints exactly one line reporting
    the failure, and a job whose conversion succeeds prints none. *)
Theorem one_failure_notice_per_failed_job file out fmt q del o :
  count is_failure_notice (convertHeic file out fmt q del o)
  = if converted fmt o then 0 else 1.
Proof. by_paths o; reflexivity. Qed.

(** *** The output file is never the source file *)

Lemma bytes_app (s1 s2 : string) : bytes (s1 +:+ s2) = bytes s1 ++ bytes s2.
Proof.
  induction s1 as [|c s1 IH]; [done |].
  change (String c s1 +:+ s2) with (String c (s1 +:+ s2)).
  unfold bytes in *. simpl. by f_equal.
Qed.

Lemma bytes_of_bytes (l : list ascii) : bytes (of_bytes l) = l.
Proof. apply list_ascii_of_string_of_list_ascii. Qed.

Lemma Replace_zero (s : string) (old : ascii) (new : string) :
  Replace s old new 0 = s.
Proof. by destruct s. Qed.

Lemma Replace_dot_length (s : string) :
  length (bytes (Replace s dot "_" 1)) = length (bytes s).
Proof.
  induction s as [|c s IH]; [done |].
  cbn [Replace]. destruct (Ascii.eqb c dot).
  - by rewrite Replace_zero.
  - unfold bytes in *. simpl. by rewrite IH.
Qed.

Lemma Replace_dot_sep_free (s : string) :
  Forall (fun c => is_sep c = false) (bytes s) ->
  Forall (fun c => is_sep c = false) (bytes (Replace s dot "_" 1)).
Proof.
  induction s as [|c s IH]; [done |].
  cbn [Replace]. intros H. apply Forall_cons_1 in H as [Hc Hs].
  destruct (Ascii.eqb c dot).
  - rewrite Replace_zero. by constructor.
  - constructor; [done | by apply IH].
Qed.

Lemma last_elem_sep_free (r seen : list ascii) :
  Forall (fun c => is_sep c = false) seen ->
  Forall (fun c => is_sep c = false) (last_elem r seen).
Proof.
  revert seen. induction r as [|c r IH]; intros seen Hs; simpl; [done |].
  destruct (is_sep c) eqn:E; [done |]. apply IH. by constructor.
Qed.

Lemma last_elem_length_ge (p x seen : list ascii) :
  Forall (fun c => is_sep c = false) p ->
  length p + length seen <= length (last_elem (p ++ x) seen).
Proof.
  revert seen. induction p as [|c p IH]; intros seen Hp; simpl.
  - clear Hp. revert seen. induction x as [|c x IHx]; intros seen; simpl; [lia |].
    destruct (is_sep c); [lia |]. specialize (IHx (c :: seen)). simpl in IHx. lia.
  - apply Forall_cons_1 in Hp as [Hc Hp]. rewrite Hc.
    specialize (IH (c :: seen) Hp). simpl in IH. lia.
Qed.

(** [Base] of a path that does not end with a separator is its longest
    final stretch without separators. *)
Lemma Base_last_elem (file : string) (c : ascii) (r : list ascii) :
  rev (bytes file) = c :: r -> is_sep c = false ->
  Base file = of_bytes (last_elem (c :: r) []).
Proof.
  intros Hr Hc. unfold Base. destruct file as [|c0 file]; [done |].
  rewrite Hr. cbn [strip_seps]. rewrite Hc.
  pose proof (last_elem_length_ge [c] r [] ltac:(by repeat constructor)) as Hl.
  simpl in Hl. rewrite Hc in Hl.
  simpl. rewrite Hc. by destruct (last_elem r [c]); [simpl in Hl; lia |].
Qed.

(** Whatever the output path, the derived output name with a suffix that
    is not empty and has no separator differs from the source path. *)
Lemma output_differs_from_source (file out sfx : string) :
  sfx <> "" -> Forall (fun c => is_sep c = false) (bytes sfx) ->
  String.eqb (outFilename file out +:+ sfx) file = false.
Proof.
  intros Hne Hsfx. apply String.eqb_neq. intros Heq.
  assert (0 < length (bytes sfx)) as Hlen by (destruct sfx; [done | simpl; lia]).
  apply (f_equal bytes) in Heq. unfold outFilename in Heq.
  destruct (String.eqb out ""); cbn [negb] in Heq; rewrite !bytes_app in Heq.
  - apply (f_equal (@length ascii)) in Heq.
    rewrite length_app, Replace_dot_length in Heq. lia.
  - set (b' := bytes (Replace (Base file) dot "_" 1)) in *.
    assert (rev (bytes file) = (rev (bytes sfx) ++ rev b') ++ rev (bytes out)) as Hr.
    { rewrite <- Heq, !rev_app_distr. by rewrite app_assoc. }
    destruct (rev (bytes sfx)) as [|c r0] eqn:Es.
    { apply (f_equal (@length ascii)) in Es. rewrite length_rev in Es.
      simpl in Es. lia. }
    assert (Forall (fun c => is_sep c = false) (c :: r0)) as Hcr.
    { rewrite <- Es. by apply Forall_rev. }
    pose proof Hcr as Hcr'. apply Forall_cons_1 in Hcr' as [Hc _].
    pose proof (Base_last_elem file c _ Hr Hc) as HB.
    set (e := last_elem _ []) in HB.
    assert (Forall (fun c => is_sep c = false) e) as He
      by (by apply last_elem_sep_free).
    assert (length b' = length e) as Hb'.
    { subst b'. by rewrite Replace_dot_length, HB, bytes_of_bytes. }
    assert (Forall (fun c => is_sep c = false) b') as Hsf.
    { subst b'. apply Replace_dot_sep_free. by rewrite HB, bytes_of_bytes. }
    pose proof (last_elem_length_ge ((c :: r0) ++ rev b') (rev (bytes out)) []) as Hge.
    rewrite <- Hr in Hge.
    assert (length e = length (last_elem (rev (bytes file)) [])) as Hee.
    { subst e. by rewrite Hr. }
    rewrite <- Hee in Hge.
    rewrite length_app, length_rev in Hge. simpl in Hge.
    assert (Forall (fun c => is_sep c = false) ((c :: r0) ++ rev b')) as Hall.
    { apply Forall_app. split; [done | by apply Forall_rev]. }
    specialize (Hge Hall). lia.
Qed.

Lemma count_zero_Forall {A} (f : A -> bool) (l : list A) :
  Forall (fun x => f x = false) l -> count f l = 0.
Proof. induction 1 as [|x l Hx _ IH]; simpl; [done | by rewrite Hx, IH]. Qed.

(** X3.  Whatever the source path, the output path and the format, the
    worker never writes to the path of its own source file: the output
    file cannot replace the source. *)
Theorem worker_never_writes_over_its_source file out fmt q del o :
  count (writes_to file) (convertHeic file out fmt q del o) = 0.
Proof.
  apply count_zero_Forall.
  eapply Forall_impl; [apply (convertHeic_write_shape file out fmt q del o) |].
  intros a Ha. destruct a as [| | | | c]; try done.
  destruct c; try done. simpl in *. specialize (Ha eq_refl).
  injection Ha as -> _.
  apply output_differs_from_source; unfold suffix_of;
    destruct (String.eqb fmt "jpeg"); try done; by repeat constructor.
Qed.

(** ** The discoverer *)

(** X8.  For a directory path in clean form other than "." and "/" and a
    tree whose entries have plain ASCII names (the root's name ASCII too):
    when the tree is walked without failure the discoverer returns no
    error, and a path is returned exactly when it is the path of a visited
    entry, file or directory, the extension of whose name is ".heic" up
    to the case of the letters; the paths come in the order of the
    walk. *)
Theorem FindHeicFiles_returns_the_heic_named_entries directory t :
  clean_dir directory = true ->
  entries_all plain_name t = true ->
  ascii_name (node_name t) = true ->
  entries_all ascii_name t = true ->
  first_failure (visits directory t) = None ->
  FindHeicFiles directory t = (selected (visits directory t), None) /\
  forall p,
    In p (fst (FindHeicFiles directory t))
    <-> exists v info, In v (visits directory t) /\ v_path v = p /\
                       v_info v = Some info /\
                       ToLower (Ext (Name info)) = ".heic".
Proof.
  intros _ _ _ _ Hok. rewrite FindHeicFiles_spec, Hok, before_failure_all by done.
  split; [done |]. intros p. simpl. rewrite In_selected.
  split; intros (v & info & Hv & Hp & Hi & Hn); exists v, info;
    repeat split; try done; by apply is_heic_name_case_insensitive.
Qed.

Lemma FindHeicFiles_returns_the_heic_named_entries_witness :
  clean_dir "d" = true /\
  entries_all plain_name album_tree = true /\
  ascii_name (node_name album_tree) = true /\
  entries_all ascii_name album_tree = true /\
  first_failure (visits "d" album_tree) = None /\
  FindHeicFiles "d" album_tree = (selected (visits "d" album_tree), None) /\
  selected (visits "d" album_tree) = ["d/a.HEIC"; "d/album.heic"].
Proof.
  split; [reflexivity |]. split; [reflexivity |]. split; [reflexivity |].
  split; [reflexivity |]. split; [reflexivity |]. split; [| reflexivity].
  pose proof (FindHeicFiles_returns_the_heic_named_entries "d" album_tree) as H.
  destruct H as [H _]; [reflexivity .. | exact H].
Defined.

Lemma append_assoc (a b c : string) : (a +:+ b) +:+ c = a +:+ (b +:+ c).
Proof.
  induction a as [|x a IH]; [done |].
  change (String x ((a +:+ b) +:+ c) = String x (a +:+ (b +:+ c))). by f_equal.
Qed.

Lemma append_empty_r (a : string) : a +:+ "" = a.
Proof.
  induction a as [|x a IH]; [done |].
  change (String x (a +:+ "") = String x a). by f_equal.
Qed.

Lemma visits_under_path (n : node) :
  forall path v, In v (visits path n) -> exists rest, v_path v = path +:+ rest.
Proof.
  induction n as [name | name entries IH | name m | name m] using node_ind;
    intros path v; simpl.
  - intros [<- | []]. exists "". by rewrite append_empty_r.
  - intros [<- | Hin]; [exists ""; by rewrite append_empty_r |].
    apply in_flat_map in Hin as (k & Hk & Hin).
    rewrite List.Forall_forall in IH.
    destruct (IH k Hk _ _ Hin) as (rest & ->).
    exists ("/" +:+ node_name k +:+ rest). unfold Join.
    by rewrite !append_assoc.
  - intros [<- | []]. exists "". by rewrite append_empty_r.
  - intros [<- | []]. exists "". by rewrite append_empty_r.
Qed.

Lemma In_before_failure (vs : list visit) (v : visit) :
  In v (before_failure vs) -> In v vs.
Proof.
  induction vs as [|x vs IH]; simpl; [done |].
  destruct (v_err x); simpl; [done |]. intros [-> | H]; auto.
Qed.

(** Joining a plain name to a path adds one element to it. *)
Lemma split_sep_app (a b cur : list ascii) (c : ascii) :
  is_sep c = true ->
  split_sep (a ++ c :: b) cur = split_sep a cur ++ split_sep b [].
Proof.
  intros Hc. revert cur. induction a as [|x a IH]; intros cur; simpl.
  - by rewrite Hc.
  - destruct (is_sep x); [by rewrite IH | apply IH].
Qed.

Lemma split_sep_plain (n cur : list ascii) :
  forallb (fun c => negb (is_sep c)) n = true ->
  split_sep n cur = [rev cur ++ n].
Proof.
  revert cur. induction n as [|x n IH]; intros cur; simpl.
  - by rewrite app_nil_r.
  - intros [Hx Hn]%andb_prop. apply negb_true_iff in Hx. rewrite Hx.
    rewrite (IH _ Hn). simpl. by rewrite <- app_assoc.
Qed.

Lemma of_bytes_bytes (s : string) : of_bytes (bytes s) = s.
Proof. apply string_of_list_ascii_of_string. Qed.

Lemma split_sep_Join (path name : string) :
  plain_name name = true ->
  split_sep (bytes (Join path name)) []
  = split_sep (bytes path) [] ++ [bytes name].
Proof.
  intros [_ Hn]%andb_prop. unfold Join.
  change (path ++ "/" ++ name)%string with (path +:+ String slash name).
  rewrite bytes_app.
  change (bytes (String slash name)) with (slash :: bytes name).
  rewrite split_sep_app by done. by rewrite (split_sep_plain _ [] Hn).
Qed.

(** The paths of the walk stay in clean form: the join the library cleans
    is the join of the model. *)
Lemma clean_dir_Join (path name : string) :
  clean_dir path = true -> plain_name name = true ->
  clean_dir (Join path name) = true.
Proof.
  intros Hp Hn. unfold clean_dir in *. rewrite split_sep_Join by done.
  destruct (split_sep (bytes path) []) as [| first rest]; [done |].
  assert (forallb (fun e => plain_name (of_bytes e)) [bytes name] = true) as Hl.
  { simpl. by rewrite of_bytes_bytes, Hn. }
  destruct first as [| x first]; simpl app.
  - destruct rest as [| e rest]; [done |].
    change ((e :: rest) ++ [bytes name]) with (e :: (rest ++ [bytes name])).
    change (forallb (fun e => plain_name (of_bytes e)) ((e :: rest) ++ [bytes name])
            = true).
    rewrite forallb_app. by rewrite Hp, Hl.
  - change (forallb (fun e => plain_name (of_bytes e))
              (((x :: first) :: rest) ++ [bytes name]) = true).
    rewrite forallb_app. by rewrite Hp, Hl.
Qed.

Lemma visits_clean (n : node) :
  forall path v,
    clean_dir path = true -> entries_all plain_name n = true ->
    In v (visits path n) -> clean_dir (v_path v) = true.
Proof.
  induction n as [name | name entries IH | name m | name m] using node_ind;
    intros path v Hp Hn; simpl.
  - by intros [<- | []].
  - intros [<- | Hin]; [done |].
    apply in_flat_map in Hin as (k & Hk & Hin).
    rewrite List.Forall_forall in IH. simpl in Hn.
    rewrite forallb_forall in Hn. specialize (Hn k Hk).
    apply andb_prop in Hn as [Hkn Hke].
    apply (IH k Hk (Join path (node_name k))); [| done | done].
    by apply clean_dir_Join.
  - by intros [<- | []].
  - by intros [<- | []].
Qed.

(** X9.  For a directory path in clean form other than "." and "/" and a
    tree whose entries have plain names (not empty, without separator,
    neither "." nor ".."): whether or not the walk fails, every path the
    discoverer returns begins with the directory path it was given and is
    itself in clean form. *)
Theorem FindHeicFiles_paths_begin_with_directory directory t :
  clean_dir directory = true ->
  entries_all plain_name t = true ->
  Forall (fun p => (exists rest, p = directory +:+ rest) /\ clean_dir p = true)
         (fst (FindHeicFiles directory t)).
Proof.
  intros Hd Ht.
  rewrite FindHeicFiles_spec. simpl. apply List.Forall_forall. intros p Hp.
  apply In_selected in Hp as (v & info & Hv & <- & _).
  apply In_before_failure in Hv. split.
  - by apply (visits_under_path t).
  - by apply (visits_clean t directory).
Qed.

Lemma FindHeicFiles_paths_begin_with_directory_witness :
  clean_dir "d" = true /\
  entries_all plain_name (tree partial_world "d") = true /\
  fst (FindHeicFiles "d" (tree partial_world "d")) = ["d/a.heic"] /\
  Forall (fun p => (exists rest, p = "d" +:+ rest) /\ clean_dir p = true)
         (fst (FindHeicFiles "d" (tree partial_world "d"))).
Proof.
  split; [reflexivity |]. split; [reflexivity |]. split; [reflexivity |].
  apply (FindHeicFiles_paths_begin_with_directory "d" (tree partial_world "d"));
    reflexivity.
Defined.

(** ** [main] without jobs, and with a missing input *)

(** X10.  When no input file is given and either no input directory is
    given or the discoverer returns no path (an empty directory, no
    matching entry, a directory that cannot be walked), main launches no
    worker and runs to its end without ever blocking. *)
Theorem empty_batch_runs_to_completion fl w :
  inputFile fl = "" ->
  inputDir fl = "" \/ fst (FindHeicFiles (inputDir fl) (tree w (inputDir fl))) = [] ->
  launches (main fl w) = [] /\
  exists s,
    run (NumCPU w) (replicate (length (main fl w)) Main) (init fl w) = Some s /\
    completed s = true /\ workers s = [] /\ slots s = 0 /\ wg s = 0.
Proof.
  intros Hf Hd. unfold init, main. rewrite Hf. cbn [String.eqb negb].
  destruct (String.eqb (inputDir fl) "") eqn:Ed; cbn [negb].
  - split; [done |]. eexists. split; [reflexivity |]. done.
  - destruct Hd as [Hd | Hd]; [by rewrite Hd in Ed |].
    destruct (FindHeicFiles _ _) as [files err]. simpl in Hd. subst files.
    unfold stat_check.
    destruct (stat_not_exist w (inputDir fl)), err; simpl;
      (split; [done |]); eexists; (split; [reflexivity |]); done.
Qed.

Lemma empty_batch_runs_to_completion_witness :
  inputFile dir_flags = "" /\
  fst (FindHeicFiles "d" (tree (world_of [File "notes.txt"] all_ok) "d")) = [] /\
  launches (main dir_flags (world_of [File "notes.txt"] all_ok)) = [].
Proof.
  split; [reflexivity |]. split; [reflexivity |].
  apply (empty_batch_runs_to_completion dir_flags (world_of [File "notes.txt"] all_ok));
    [reflexivity | right; reflexivity].
Defined.

(** X11.  A missing input is reported and processed all the same: when
    [os.Stat] says the input file does not exist, main prints the notice
    and still launches the worker for it; when it says the input directory
    does not exist, main prints the notice and still walks it. *)
Theorem missing_input_is_reported_and_still_processed fl w :
  (inputFile fl <> "" -> stat_not_exist w (inputFile fl) = true ->
   In (MDo (FmtPrintf (InputFileDoesNotExist (inputFile fl)))) (main fl w) /\
   launches (main fl w) = [inputFile fl]) /\
  (inputFile fl = "" -> inputDir fl <> "" ->
   stat_not_exist w (inputDir fl) = true ->
   In (MDo (FmtPrintf (InputDirDoesNotExist (inputDir fl)))) (main fl w) /\
   walks (main fl w) = [inputDir fl]).
Proof.
  split.
  - intros Hne Hst. apply String.eqb_neq in Hne.
    unfold main, stat_check. rewrite Hne, Hst. simpl. tauto.
  - intros Hf Hne Hst. apply String.eqb_neq in Hne.
    unfold main, stat_check. rewrite Hf, Hne, Hst. cbn [String.eqb negb].
    destruct (FindHeicFiles _ _) as [files err]. split.
    + simpl. tauto.
    + unfold walks. cbn [flat_map app]. rewrite !flat_map_app.
      assert (forall g, flat_map
                (fun i => match i with MDo (FilepathWalk d) => [d] | _ => [] end)
                (flat_map (fun file => [WgAdd; Go file false (g file)]) files)
              = []) as Hl
        by (intros g; induction files as [|f fs IH]; simpl; done).
      rewrite Hl. by destruct err.
Qed.

(** ** Goroutines: what blocks, what never does, and how runs end *)

(** *** Nothing is done before the barrier *)

Lemma fresh_inv_step (fl : flags) (w : world) (P : nat) (t : tid) (s s' : state) :
  fresh_inv fl w s -> exec P t s = Some s' -> fresh_inv fl w s'.
Proof.
  intros [Hg Hw] H. destruct t as [| i]; simpl in H.
  - exec_main_cases H; unfold fresh_inv; sproj;
      apply Forall_cons_1 in Hg as [Hi Hg]; (split; [done |]); try done.
    + apply Forall_app. split; [done |]. apply Forall_singleton. sproj.
      unfold fresh. sproj.
      match goal with Hi : go_conv _ _ (Go _ ?r _) |- _ => destruct r end;
        simpl in Hi; auto.
    + eapply Forall_impl; [exact Hw |]. intros wk Hwk. simpl in Hwk.
      by destruct (past wk).
  - exec_worker_cases H; unfold fresh_inv; sproj;
      pose proof (Forall_lookup_1 _ _ _ _ Hw Ew) as Hwk; simpl in Hwk;
      (split; [done |]); apply Forall_insert; try done; sproj; try done.
    all: destruct (past wk); try done.
    all: unfold fresh, conv, convertHeic in *; sproj; rewrite Ep in Hwk.
    all: destruct Hwk as [Hwk | Hwk]; try discriminate Hwk.
    left. by injection Hwk.
Qed.

Lemma fresh_inv_run (fl : flags) (w : world) (sched : list tid) (s : state) :
  run (NumCPU w) sched (init fl w) = Some s -> fresh_inv fl w s.
Proof.
  apply (run_invariant (NumCPU w) (fresh_inv fl w)).
  - apply fresh_inv_step.
  - split; [apply main_go_conv | constructor].
Qed.

(** X12.  No conversion starts before the barrier, and the barrier fires
    only when every job has been launched: in every state of every run, a
    worker that has passed [<-start] finds [start] closed and no [go] left
    in main, and a worker that has not passed it has performed nothing
    except possibly its reservation. *)
Theorem no_work_before_the_barrier fl w sched s :
  run (NumCPU w) sched (init fl w) = Some s ->
  Forall (fun wk =>
            if past wk then started s = true /\ launches (mprog s) = []
            else prog wk = conv fl w (job wk)
                 \/ prog wk = SendDone :: conv fl w (job wk))
         (workers s).
Proof.
  intros Hrun.
  destruct (fresh_inv_run fl w sched s Hrun) as [_ Hw].
  destruct (barrier_run fl w sched s Hrun) as [_ Hb].
  eapply Forall_impl; [exact Hw |]. intros wk Hwk. simpl in Hwk.
  destruct (past wk); [| done]. split; [done | by apply Hb].
Qed.

Lemma no_work_before_the_barrier_witness :
  run 1 sched_first_in_body (init dir_flags two_files_world)
    = Some state_first_in_body /\
  map past (workers state_first_in_body) = [true; false] /\
  Forall (fun wk =>
            if past wk
            then started state_first_in_body = true
                 /\ launches (mprog state_first_in_body) = []
            else prog wk = conv dir_flags two_files_world (job wk)
                 \/ prog wk = SendDone :: conv dir_flags two_files_world (job wk))
         (workers state_first_in_body).
Proof.
  split; [reflexivity |]. split; [reflexivity |].
  apply (no_work_before_the_barrier dir_flags two_files_world sched_first_in_body).
  reflexivity.
Defined.

(** *** The order of main's statements *)

Lemma count_zero_close_first (p : list minstr) :
  count is_CloseStart p = 0 -> close_first p.
Proof.
  induction p as [|i p IH]; simpl; [done |].
  destruct i; simpl; auto; lia.
Qed.

Lemma count_zero_no_send_after_go (p : list minstr) :
  count is_MSendDone p = 0 -> no_send_after_go p.
Proof.
  induction p as [|i p IH]; simpl; [done |].
  destruct i; simpl; auto; lia.
Qed.

(** The loop of line 178, followed by the end of main. *)
Lemma order_of_loop (g : string -> list action) (files : list string) :
  let p := flat_map (fun file => [WgAdd; Go file false (g file)]) files
           ++ [CloseStart; WgWait; MDo (FmtPrintf AllConversionsCompleted)] in
  adds_covered p /\ count is_WgAdd p <= count is_Go p /\
  count is_CloseStart p = 1 /\ close_first p /\
  no_send_after_go p /\ count is_MSendDone p = 0.
Proof.
  induction files as [|f fs IH]; simpl.
  - repeat split; lia.
  - simpl in IH. destruct IH as (H1 & H2 & H3 & H4 & H5 & H6).
    repeat split; try done; lia.
Qed.

Lemma order_inv_init (fl : flags) (w : world) : order_inv (init fl w).
Proof.
  unfold order_inv, init; sproj. unfold main, stat_check.
  destruct (String.eqb (inputFile fl) ""); cbn [negb].
  - destruct (String.eqb (inputDir fl) ""); cbn [negb].
    + simpl. repeat split; lia.
    + destruct (FindHeicFiles _ _) as [files err].
      pose proof (order_of_loop
        (fun file => SendDone :: convertHeic file (outputPath fl) (format fl)
                       (quality fl) (deleteOriginal fl) (codec w file)) files)
        as (H1 & H2 & H3 & H4 & H5 & H6).
      destruct (stat_not_exist w (inputDir fl)), err; simpl;
        repeat split; try done; lia.
  - destruct (stat_not_exist w (inputFile fl)); simpl; repeat split; lia.
Qed.

Lemma order_inv_step (P : nat) (t : tid) (s s' : state) :
  order_inv s -> exec P t s = Some s' -> order_inv s'.
Proof.
  intros (Ha & Hc & Hf & Hn & He) H. destruct t as [| i]; simpl in H.
  - exec_main_cases H; unfold order_inv; sproj; destruct Ha as [_ Ha];
      refine (conj _ (conj _ (conj _ (conj _ _)))); try done.
    + intros H0. apply He. lia.
    + by apply count_zero_no_send_after_go.
    + lia.
    + lia.
    + by apply count_zero_close_first.
  - exec_worker_cases H; unfold order_inv; sproj;
      refine (conj _ (conj _ (conj _ (conj _ _)))); try done;
      intros H0; specialize (He H0); rewrite He in Ew; discriminate Ew.
Qed.

Lemma order_inv_run (fl : flags) (w : world) (sched : list tid) (s : state) :
  run (NumCPU w) sched (init fl w) = Some s -> order_inv s.
Proof.
  apply (run_invariant (NumCPU w) order_inv).
  - apply order_inv_step.
  - apply order_inv_init.
Qed.

Lemma count_pos_lookup {A} (f : A -> bool) (l : list A) (i : nat) (x : A) :
  l !! i = Some x -> f x = true -> 0 < count f l.
Proof.
  revert i. induction l as [|y l IH]; intros i; [done |].
  destruct i as [|i]; simpl.
  - intros [= ->] ->. lia.
  - intros Hi Hx. specialize (IH i Hi Hx). lia.
Qed.

Lemma count_pos_exists {A} (f : A -> bool) (l : list A) :
  0 < count f l -> exists i x, l !! i = Some x /\ f x = true.
Proof.
  induction l as [|y l IH]; simpl; [lia |].
  destruct (f y) eqn:E.
  - intros _. by exists 0, y.
  - intros H. destruct IH as (i & x & Hi & Hx); [lia |]. by exists (S i), x.
Qed.

(** A worker whose next step is not a reservation on a full pool, nor a
    wait on the open barrier, can take it. *)
Lemma worker_can_move fl w sched s i wk a rest :
  run (NumCPU w) sched (init fl w) = Some s ->
  workers s !! i = Some wk -> prog wk = a :: rest ->
  (a = SendDone -> slots s < NumCPU w) ->
  (a = RecvStart -> started s = true) ->
  is_Some (exec (NumCPU w) (Worker i) s).
Proof.
  intros Hrun Hi Hp Hsend Hstart. simpl. unfold exec_worker. rewrite Hi, Hp.
  destruct a.
  - specialize (Hsend eq_refl). apply Nat.ltb_lt in Hsend. by rewrite Hsend.
  - by rewrite Hstart.
  - destruct (slot_inv_run fl w sched s Hrun) as (pend & _ & Hw & Hs & _).
    pose proof (Forall_lookup_1 _ _ _ _ Hw Hi) as Hwk.
    unfold worker_inv in Hwk. rewrite Hp in Hwk.
    assert (holding wk = true) as Hh.
    { unfold holding. destruct (past wk); simpl in Hwk.
      - destruct Hwk as (-> & _ & Hr). destruct (released wk); [lia | done].
      - destruct Hwk as (_ & Hl). unfold launch_ok in Hl.
        destruct (reserved wk); by destruct Hl as (t & Ht & _). }
    pose proof (count_pos_lookup holding _ _ _ Hi Hh).
    destruct (slots s); [lia | done].
  - destruct (wg_inv_run fl w sched s Hrun) as (Hc & _).
    destruct (order_inv_run fl w sched s Hrun) as (Ha & _).
    assert (unfinished wk = true) as Hu by (unfold unfinished; by rewrite Hp).
    pose proof (count_pos_lookup unfinished _ _ _ Hi Hu).
    assert (count is_WgAdd (mprog s) <= count is_Go (mprog s)) as Hle.
    { destruct (mprog s); [simpl; lia | by destruct Ha]. }
    destruct (wg s); [lia | done].
  - done.
Qed.

(** X13.  The only places where a goroutine can wait are the reservation
    of a slot (while the pool is full), the barrier (until it fires) and
    main's [wg.Wait()]; nothing ever panics.  In every state of every run
    a worker can take its next step unless that step is a reservation on
    a full pool or the wait on a barrier not yet fired, so a release never
    blocks and [wg.Done()] never drives the counter negative; and main
    can take its next step unless it is a reservation on a full pool or a
    [wg.Wait()] with workers pending, so [start] is never closed twice. *)
Theorem only_reservation_barrier_and_join_block fl w sched s :
  run (NumCPU w) sched (init fl w) = Some s ->
  (forall i wk a rest,
     workers s !! i = Some wk -> prog wk = a :: rest ->
     (a = SendDone -> slots s < NumCPU w) ->
     (a = RecvStart -> started s = true) ->
     is_Some (exec (NumCPU w) (Worker i) s)) /\
  (forall i rest,
     mprog s = i :: rest ->
     (i = MSendDone -> slots s < NumCPU w) ->
     (i = WgWait -> wg s = 0) ->
     is_Some (exec (NumCPU w) Main s)).
Proof.
  intros Hrun. split.
  - intros i wk a rest. by apply (worker_can_move fl w sched).
  - intros i rest Hm Hsend Hwait. simpl. unfold exec_main. rewrite Hm.
    destruct i; try done.
    + specialize (Hsend eq_refl). apply Nat.ltb_lt in Hsend. by rewrite Hsend.
    + destruct (order_inv_run fl w sched s Hrun) as (_ & Hc & _).
      rewrite Hm in Hc. simpl in Hc. destruct (started s); [lia | done].
    + by rewrite (Hwait eq_refl).
Qed.

Lemma only_reservation_barrier_and_join_block_witness :
  run 1 sched_first_in_body (init dir_flags two_files_world)
    = Some state_first_in_body /\
  is_Some (exec 1 (Worker 0) state_first_in_body) /\
  exec 1 (Worker 1) state_first_in_body = None.
Proof.
  split; [reflexivity |]. split; [| reflexivity].
  destruct (only_reservation_barrier_and_join_block dir_flags two_files_world
              sched_first_in_body state_first_in_body) as [Hw _];
    [reflexivity |].
  eapply (Hw 0); [reflexivity | reflexivity | discriminate | reflexivity].
Defined.

(** *** When a run can get stuck *)

Lemma count_le_length {A} (f : A -> bool) (l : list A) : count f l <= length l.
Proof. induction l as [|x l IH]; simpl; [done | destruct (f x); lia]. Qed.

Lemma count_lt_length {A} (f : A -> bool) (l : list A) (i : nat) (x : A) :
  l !! i = Some x -> f x = false -> count f l < length l.
Proof.
  revert i. induction l as [|y l IH]; intros i; [done |].
  destruct i as [|i]; simpl.
  - intros [= ->] ->. pose proof (count_le_length f l). lia.
  - intros Hi Hx. specialize (IH i Hi Hx). destruct (f y); lia.
Qed.

Lemma count_split {A} (f g : A -> bool) (l : list A) :
  count f l = count (fun x => f x && g x) l + count (fun x => f x && negb (g x)) l.
Proof.
  induction l as [|x l IH]; simpl; [done |].
  rewrite IH. destruct (f x), (g x); simpl; lia.
Qed.

Lemma count_le_pointwise {A} (f g : A -> bool) (l : list A) :
  (forall x, f x = true -> g x = true) -> count f l <= count g l.
Proof.
  intros H. induction l as [|x l IH]; simpl; [done |].
  destruct (f x) eqn:E; [rewrite (H x E) |]; lia.
Qed.

(** A worker that holds a slot is not about to reserve one. *)
Lemma holder_not_reserving (wk : worker) (r : list action) :
  worker_inv wk -> reserved wk = true -> prog wk <> SendDone :: r.
Proof.
  intros Hwk Hres Hp. unfold worker_inv in Hwk. rewrite Hp, Hres in Hwk.
  destruct (past wk); simpl in Hwk.
  - destruct Hwk as (_ & Hent & _). lia.
  - destruct Hwk as (_ & t & Ht & _). discriminate Ht.
Qed.

(** X15.  On a host with at least one CPU a run can only get stuck when
    at least as many jobs as there are CPUs return early and there are
    more jobs than CPUs.  Otherwise (fewer early returns than CPUs, as
    when every conversion succeeds, or no more jobs than CPUs, as in
    single-file mode), in every state that a run reaches, unless main has
    returned, some goroutine can take a step. *)
Theorem no_deadlock_with_few_early_returns fl w sched s :
  1 <= NumCPU w ->
  count (fun file => negb (gives_back fl w file)) (launches (main fl w)) < NumCPU w
    \/ length (launches (main fl w)) <= NumCPU w ->
  run (NumCPU w) sched (init fl w) = Some s ->
  completed s = false ->
  exists t, is_Some (exec (NumCPU w) t s).
Proof.
  intros HP Hfew Hrun Hc. unfold completed in Hc.
  destruct (mprog s) as [| i rest] eqn:Em; [done |]. clear Hc.
  destruct (slot_inv_run fl w sched s Hrun) as (pend & Hm & Hw & Hs & HsP).
  destruct (order_inv_run fl w sched s Hrun) as (_ & Hcl & Hcf & _ & Hse).
  pose proof (jobs_run fl w sched s Hrun) as Hjobs.
  rewrite Em in Hm, Hcl, Hcf, Hse.
  assert (forall j wk a r, workers s !! j = Some wk -> prog wk = a :: r ->
            (a = SendDone -> slots s < NumCPU w) ->
            (a = RecvStart -> started s = true) ->
            is_Some (exec (NumCPU w) (Worker j) s)) as Hmove
    by (intros j wk a r; by apply (worker_can_move fl w sched)).
  destruct i; try (exists Main; simpl; unfold exec_main; rewrite Em; done).
  - (* done <- struct{}{} by main: no worker exists yet *)
    exists Main. simpl. unfold exec_main. rewrite Em.
    simpl in Hm. destruct Hm as [-> _].
    rewrite Hse in Hs by (simpl; lia). simpl in Hs.
    assert ((slots s <? NumCPU w)%nat = true) as -> by (apply Nat.ltb_lt; lia).
    done.
  - (* close(start) *)
    exists Main. simpl. unfold exec_main. rewrite Em.
    simpl in Hcl. destruct (started s); [lia | done].
  - (* wg.Wait() *)
    destruct (wg s) as [| g] eqn:Eg.
    { exists Main. simpl. unfold exec_main. by rewrite Em, Eg. }
    simpl in Hm. destruct Hm as [-> _]. simpl in Hcl, Hcf.
    assert (started s = true) as Hst by (destruct (started s); [done | lia]).
    destruct (wg_inv_run fl w sched s Hrun) as (Hcnt & _ & _ & Hwait & _).
    rewrite Em in Hcnt, Hwait. simpl in Hcnt, Hwait.
    destruct Hwait as (Ha & Hg & _).
    destruct (count_pos_exists unfinished (workers s)) as (j & wk & Hj & Hu);
      [lia |].
    unfold unfinished in Hu. destruct (prog wk) as [| a r] eqn:Ep; [done |].
    destruct (decide (slots s < NumCPU w)) as [Hlt | Hge];
      [exists (Worker j); by apply (Hmove j wk a r) |].
    destruct Hfew as [Hfew | Hfew].
    + (* fewer early returns than slots: some holder will give back *)
      pose proof (count_split holding (fun wk => gives_back fl w (job wk))
                    (workers s)) as Hsplit.
      assert (count (fun wk => holding wk && negb (gives_back fl w (job wk)))
                    (workers s)
              <= count (fun file => negb (gives_back fl w file))
                       (launches (main fl w))) as Hle.
      { rewrite <- Hjobs, count_app, count_map.
        pose proof (count_le_pointwise
          (fun wk => holding wk && negb (gives_back fl w (job wk)))
          (fun wk => negb (gives_back fl w (job wk))) (workers s)) as Hpw.
        simpl in Hpw. specialize (Hpw ltac:(by intros x [_ ?]%andb_true_iff)).
        lia. }
      destruct (count_pos_exists
                  (fun wk => holding wk && gives_back fl w (job wk)) (workers s))
        as (k & wk' & Hk & Hh); [lia |].
      apply andb_true_iff in Hh as [Hh Hgb].
      unfold holding in Hh. apply andb_true_iff in Hh as [Hres Hrel].
      apply negb_true_iff in Hrel.
      destruct (release_inv_run fl w sched s Hrun) as [_ Hr].
      pose proof (Forall_lookup_1 _ _ _ _ Hr Hk) as Hrk. simpl in Hrk.
      pose proof (Forall_lookup_1 _ _ _ _ Hw Hk) as Hwk.
      rewrite Hgb, Hrel in Hrk. simpl in Hrk.
      destruct (prog wk') as [| a' r'] eqn:Ep'; [simpl in Hrk; lia |].
      exists (Worker k). apply (Hmove k wk' a' r'); [done | done | | by intros _].
      intros ->. by destruct (holder_not_reserving wk' r' Hwk Hres).
    + (* no more jobs than slots: every worker holds a slot *)
      assert (length (workers s) <= length (launches (main fl w))) as Hlen
        by (rewrite <- Hjobs, length_app, length_map; lia).
      pose proof (Forall_lookup_1 _ _ _ _ Hw Hj) as Hwj.
      destruct (holding wk) eqn:Hh.
      * unfold holding in Hh. apply andb_true_iff in Hh as [Hres _].
        exists (Worker j). apply (Hmove j wk a r); [done | done | | by intros _].
        intros ->. by destruct (holder_not_reserving wk r Hwj Hres).
      * pose proof (count_lt_length holding _ _ _ Hj Hh). lia.
Qed.

Lemma no_deadlock_with_few_early_returns_witness :
  1 <= NumCPU two_files_world /\
  count (fun file => negb (gives_back dir_flags two_files_world file))
        (launches (main dir_flags two_files_world)) = 0 /\
  run 1 sched_first_in_body (init dir_flags two_files_world)
    = Some state_first_in_body /\
  completed state_first_in_body = false /\
  exists t, is_Some (exec 1 t state_first_in_body).
Proof.
  split; [simpl; lia |]. split; [reflexivity |].
  split; [reflexivity |]. split; [reflexivity |].
  apply (no_deadlock_with_few_early_returns dir_flags two_files_world
           sched_first_in_body state_first_in_body);
    [simpl; lia | left; simpl; lia | reflexivity | reflexivity].
Defined.

(** *** What holds when main returns *)

(** X16.  Main returns only after every job has been launched, once and
    in the order of the job list, and every worker has returned: the wait
    group joins them all. *)
Theorem main_returns_after_all_workers fl w sched s :
  run (NumCPU w) sched (init fl w) = Some s ->
  completed s = true ->
  map job (workers s) = launches (main fl w) /\
  Forall (fun wk => prog wk = []) (workers s) /\
  wg s = 0.
Proof.
  intros Hrun Hc.
  destruct (releases_at_completion fl w sched s Hrun Hc) as (Hj & Hf & _).
  split; [done |]. split; [done |].
  destruct (wg_inv_run fl w sched s Hrun) as (Hcnt & _ & _ & _ & Hd).
  unfold completed in Hc. destruct (mprog s); [| done].
  simpl in Hcnt, Hd. destruct Hd as (_ & _ & Hu); [done |]. lia.
Qed.

Lemma main_returns_after_all_workers_witness :
  run 1 sched_read_fail (init file_flags unreadable_world) = Some state_read_fail /\
  completed state_read_fail = true /\
  map job (workers state_read_fail) = launches (main file_flags unreadable_world).
Proof.
  split; [reflexivity |]. split; [reflexivity |].
  pose proof (main_returns_after_all_workers file_flags unreadable_world
                sched_read_fail state_read_fail) as H.
  destruct H as [H _]; [reflexivity | reflexivity | exact H].
Defined.

(** X17.  If no job returns early, then when main returns every slot has
    been given back: [done] is empty and the releases are as many as the
    jobs. *)
Theorem no_slot_held_at_completion_without_early_return fl w sched s :
  Forall (fun file => gives_back fl w file = true) (launches (main fl w)) ->
  run (NumCPU w) sched (init fl w) = Some s ->
  completed s = true ->
  slots s = 0 /\ releases s = length (launches (main fl w)).
Proof.
  intros Hall Hrun Hc.
  destruct (releases_at_completion fl w sched s Hrun Hc) as (_ & _ & Hr & Hs).
  assert (count (gives_back fl w) (launches (main fl w))
          = length (launches (main fl w))) as Hn.
  { clear -Hall. induction Hall as [| f l Hf _ IH]; simpl; [done |].
    rewrite Hf, IH. done. }
  lia.
Qed.

Lemma no_slot_held_at_completion_without_early_return_witness :
  Forall (fun file => gives_back dir_flags two_files_world file = true)
         (launches (main dir_flags two_files_world)) /\
  run 1 sched_two_converted (init dir_flags two_files_world)
    = Some state_two_converted /\
  completed state_two_converted = true /\
  slots state_two_converted = 0 /\ releases state_two_converted = 2.
Proof.
  assert (Forall (fun file => gives_back dir_flags two_files_world file = true)
                 (launches (main dir_flags two_files_world))) as Hall
    by (by repeat constructor).
  split; [exact Hall |]. split; [reflexivity |]. split; [reflexivity |].
  pose proof (no_slot_held_at_completion_without_early_return dir_flags
                two_files_world sched_two_converted state_two_converted Hall) as H.
  destruct H as [H1 H2]; [reflexivity | reflexivity |].
  split; [exact H1 | exact H2].
Defined.

(** ** Failures before decoding *)

(** X18.  When the context cannot be created, the file cannot be read or
    it has no primary image handle, the worker touches no file: it
    attempts no write and, even with the delete flag, no removal. *)
Theorem early_failure_touches_no_file file out fmt q del o :
  ctx_ok o && read_ok o && handle_ok o = false ->
  count is_write (convertHeic file out fmt q del o) = 0 /\
  count is_remove (convertHeic file out fmt q del o) = 0.
Proof.
  intros H.
  rewrite convertHeic_write_count, convertHeic_remove_count.
  unfold decodes, falls_through. rewrite H. simpl.
  by rewrite andb_false_r.
Qed.

Lemma early_failure_touches_no_file_witness :
  ctx_ok read_fails && read_ok read_fails && handle_ok read_fails = false /\
  count is_write (convertHeic "a.heic" "out/" "jpeg" 80 true read_fails) = 0 /\
  count is_remove (convertHeic "a.heic" "out/" "jpeg" 80 true read_fails) = 0.
Proof.
  split; [reflexivity |].
  apply (early_failure_touches_no_file "a.heic" "out/" "jpeg" 80 true read_fails).
  reflexivity.
Defined.
